(** * Dice To-Do: the task store and the weighted dice roll of [src/App.js]

    A shallow embedding of the core of the single-file React Native
    application: the task list with its add / toggle / delete handlers, the
    persistence wrappers around AsyncStorage, the weighted pick and the
    timer-driven roll.  Handlers are functions on an explicit application
    state; what the JavaScript runtime supplies (the clock, the random
    source, the storage module, the timer queue) is passed in or kept in an
    explicit environment record. *)

From Stdlib Require Import String Ascii DecimalZ DecimalFacts Qcanon.
From stdpp Require Import base numbers list gmap.

Local Close Scope Qc_scope.
Local Close Scope Q_scope.
Local Open Scope N_scope.

(* ===================================================================== *)
(** * Part I: definitions                                                  *)
(* ===================================================================== *)

(** ** JavaScript strings

    A JavaScript string is a sequence of UTF-16 code units.  It is kept as
    the list of its code units; [str] turns a literal of the development
    into that representation. *)

Abbreviation jsstring := (list N).

Definition str (s : string) : jsstring :=
  map N_of_ascii (list_ascii_of_string s).

Arguments str s%_string.

(** [s1 === s2] on two strings. *)
Definition str_eqb (a b : jsstring) : bool := bool_decide (a = b).

(** The code units removed by [String.prototype.trim]: ECMAScript's
    WhiteSpace and LineTerminator productions. *)
Definition is_js_whitespace (c : N) : bool :=
  (c =? 9) || (c =? 10) || (c =? 11) || (c =? 12) || (c =? 13) || (c =? 32)
  || (c =? 160) || (c =? 5760) || ((8192 <=? c) && (c <=? 8202))
  || (c =? 8232) || (c =? 8233) || (c =? 8239) || (c =? 8287)
  || (c =? 12288) || (c =? 65279).

Fixpoint trim_start (s : jsstring) : jsstring :=
  match s with
  | c :: r => if is_js_whitespace c then trim_start r else s
  | [] => []
  end.

Definition trim_end (s : jsstring) : jsstring := rev (trim_start (rev s)).

Definition trim (s : jsstring) : jsstring := trim_end (trim_start s).

(** Truthiness of a string: only the empty string is falsy. *)
Definition truthy_str (s : jsstring) : bool :=
  match s with [] => false | _ :: _ => true end.

(** ** Numbers that are integers

    [Date.now()] is an integer number of milliseconds; [Number.prototype.toString]
    prints such a number in plain decimal, with a leading minus sign when it
    is negative. *)

Fixpoint digit_units (u : Decimal.uint) : jsstring :=
  match u with
  | Decimal.Nil => []
  | Decimal.D0 r => 48 :: digit_units r
  | Decimal.D1 r => 49 :: digit_units r
  | Decimal.D2 r => 50 :: digit_units r
  | Decimal.D3 r => 51 :: digit_units r
  | Decimal.D4 r => 52 :: digit_units r
  | Decimal.D5 r => 53 :: digit_units r
  | Decimal.D6 r => 54 :: digit_units r
  | Decimal.D7 r => 55 :: digit_units r
  | Decimal.D8 r => 56 :: digit_units r
  | Decimal.D9 r => 57 :: digit_units r
  end.

Definition Number_toString (z : Z) : jsstring :=
  match Z.to_int z with
  | Decimal.Pos u => digit_units u
  | Decimal.Neg u => 45 :: digit_units u
  end.

(** [Number.isSafeInteger]: the integers a double represents exactly. *)
Definition safe_integer (z : Z) : bool :=
  ((-9007199254740991 <=? z) && (z <=? 9007199254740991))%Z.

(** ** Tasks

    The object literal built by [addTask]: five fields, in this order. *)

Record Task := mkTask {
  id : jsstring;
  name : jsstring;
  priority : jsstring;
  done : bool;
  createdAt : Z;
}.

Global Instance Task_eq_dec : EqDecision Task.
Proof. solve_decision. Defined.

(** The three values the priority buttons of the form offer. *)
Inductive Priority := High | Medium | Low.

Definition priority_label (p : Priority) : jsstring :=
  match p with
  | High => str "High"
  | Medium => str "Medium"
  | Low => str "Low"
  end.

Definition is_enumerated (p : jsstring) : Prop :=
  p = str "High" ∨ p = str "Medium" ∨ p = str "Low".

(** ** The component state: the [useState] cells and the two refs *)

Abbreviation timer_id := nat (only parsing).

Record App := mkApp {
  tasks : list Task;
  form_name : jsstring;
  form_priority : jsstring;
  modalVisible : bool;
  selectedTask : option Task;
  tempSelected : option Task;
  rolling : bool;
  error : jsstring;
  intervalRef : option timer_id;
  timeoutRef : option timer_id;
}.

(** The state on mount. *)
Definition initial_app : App :=
  mkApp [] [] (str "Medium") false None None false [] None None.

Definition setTasks (f : list Task → list Task) (a : App) : App :=
  mkApp (f (tasks a)) (form_name a) (form_priority a) (modalVisible a)
        (selectedTask a) (tempSelected a) (rolling a) (error a)
        (intervalRef a) (timeoutRef a).

Definition setName (s : jsstring) (a : App) : App :=
  mkApp (tasks a) s (form_priority a) (modalVisible a)
        (selectedTask a) (tempSelected a) (rolling a) (error a)
        (intervalRef a) (timeoutRef a).

Definition setPriority (p : jsstring) (a : App) : App :=
  mkApp (tasks a) (form_name a) p (modalVisible a)
        (selectedTask a) (tempSelected a) (rolling a) (error a)
        (intervalRef a) (timeoutRef a).

Definition setModalVisible (b : bool) (a : App) : App :=
  mkApp (tasks a) (form_name a) (form_priority a) b
        (selectedTask a) (tempSelected a) (rolling a) (error a)
        (intervalRef a) (timeoutRef a).

Definition setSelectedTask (t : option Task) (a : App) : App :=
  mkApp (tasks a) (form_name a) (form_priority a) (modalVisible a)
        t (tempSelected a) (rolling a) (error a)
        (intervalRef a) (timeoutRef a).

Definition setTempSelected (t : option Task) (a : App) : App :=
  mkApp (tasks a) (form_name a) (form_priority a) (modalVisible a)
        (selectedTask a) t (rolling a) (error a)
        (intervalRef a) (timeoutRef a).

Definition setRolling (b : bool) (a : App) : App :=
  mkApp (tasks a) (form_name a) (form_priority a) (modalVisible a)
        (selectedTask a) (tempSelected a) b (error a)
        (intervalRef a) (timeoutRef a).

Definition setError (e : jsstring) (a : App) : App :=
  mkApp (tasks a) (form_name a) (form_priority a) (modalVisible a)
        (selectedTask a) (tempSelected a) (rolling a) e
        (intervalRef a) (timeoutRef a).

Definition set_intervalRef (r : option timer_id) (a : App) : App :=
  mkApp (tasks a) (form_name a) (form_priority a) (modalVisible a)
        (selectedTask a) (tempSelected a) (rolling a) (error a)
        r (timeoutRef a).

Definition set_timeoutRef (r : option timer_id) (a : App) : App :=
  mkApp (tasks a) (form_name a) (form_priority a) (modalVisible a)
        (selectedTask a) (tempSelected a) (rolling a) (error a)
        (intervalRef a) r.

(** ** The store handlers *)

Definition resetForm (a : App) : App :=
  setPriority (str "Medium") (setName [] a).

(** [addTask].  The handler reads the clock twice, once for [id] and once
    for [createdAt]; [now_id] and [now_created] are those two readings.
    The guard [!name || !name.trim()] rejects the empty string and the
    strings that trim to the empty string. *)
Definition addTask (now_id now_created : Z) (a : App) : App :=
  if negb (truthy_str (form_name a)) || negb (truthy_str (trim (form_name a)))
  then setError (str "Please enter a task name") a
  else
    let newTask :=
      {| id := Number_toString now_id;
         name := trim (form_name a);
         priority := form_priority a;
         done := false;
         createdAt := now_created |} in
    setError [] (setModalVisible false (resetForm
      (setTasks (λ prev, newTask :: prev) a))).

Definition toggle (i : jsstring) (t : Task) : Task :=
  if str_eqb (id t) i
  then {| id := id t; name := name t; priority := priority t;
          done := negb (done t); createdAt := createdAt t |}
  else t.

Definition toggleDone (i : jsstring) (a : App) : App :=
  let a' := setTasks (λ prev, map (toggle i) prev) a in
  match selectedTask a with
  | Some s => if str_eqb (id s) i then setSelectedTask None a' else a'
  | None => a'
  end.

(** [deleteTask] opens a confirmation dialog; [confirmed] is the button the
    user presses there.  Only "Delete" runs the state update. *)
Definition deleteTask (i : jsstring) (confirmed : bool) (a : App) : App :=
  if confirmed
  then setTasks (λ prev, filter (λ t, id t ≠ i) prev) a
  else a.

(** [tasks.filter((t) => !t.done)] *)
Definition incomplete (ts : list Task) : list Task :=
  filter (λ t, negb (done t)) ts.

(** ** The selector *)

(** [t.priority === "High" ? 3 : t.priority === "Medium" ? 2 : 1] *)
Definition weight (t : Task) : nat :=
  if str_eqb (priority t) (str "High") then 3
  else if str_eqb (priority t) (str "Medium") then 2
  else 1.

(** The array [expanded]: every task's id, pushed [weight] times, in pool
    order. *)
Fixpoint expand (pool : list Task) : list jsstring :=
  match pool with
  | [] => []
  | t :: rest => replicate (weight t) (id t) ++ expand rest
  end.

(** [pool.find((p) => p.id === id)] *)
Definition find_by_id (i : jsstring) (pool : list Task) : option Task :=
  List.find (λ p, str_eqb (id p) i) pool.

(** [pickWeightedTask].  [draw] is [Math.floor(Math.random() * expanded.length)],
    an index into [expanded]; reading past the end of the array gives
    [undefined], which no id equals, and the function then returns [null]. *)
Definition pickWeightedTask (pool : list Task) (draw : nat) : option Task :=
  match pool with
  | [] => None
  | _ :: _ =>
      match expand pool !! draw with
      | Some i => find_by_id i pool
      | None => None
      end
  end.

(** Number of draws, among the [length (expand pool)] equally likely ones,
    on which [pickWeightedTask] returns [t]. *)
Definition favourable (pool : list Task) (t : Task) : nat :=
  length (filter (λ k, pickWeightedTask pool k = Some t)
                 (seq 0 (length (expand pool)))).

Definition total_weight (pool : list Task) : nat :=
  sum_list_with weight pool.

(** The chance of an event that holds on [a] of [b] equally likely draws. *)
Definition ratio (a b : nat) : Qc :=
  (Qc_of_Z (Z.of_nat a) / Qc_of_Z (Z.of_nat b))%Qc.

(** Probability that the weighted pick returns [t], the draw being uniform
    over the indices of [expanded]. *)
Definition probability (pool : list Task) (t : Task) : Qc :=
  ratio (favourable pool t) (length (expand pool)).


(** ** Timers

    [setInterval] and [setTimeout] hand out fresh positive ids from one
    counter and keep the callback until it is cleared (or, for a timeout,
    until it has run).  The two callbacks of [rollDice] close over the
    array [available]; [owner] is a label of the development, the number of
    the roll that scheduled the timer, and no handler reads it. *)

Inductive TimerKind := Interval | Timeout.

Global Instance TimerKind_eq_dec : EqDecision TimerKind.
Proof. solve_decision. Defined.

Record Timer := mkTimer {
  kind : TimerKind;
  available : list Task;
  owner : nat;
}.

Record Timers := mkTimers {
  next_id : timer_id;
  pending : gmap nat Timer;
}.

Definition initial_timers : Timers := mkTimers 1 ∅.

Definition schedule (k : TimerKind) (pool : list Task) (roll : nat)
    (ts : Timers) : timer_id * Timers :=
  (next_id ts,
   mkTimers (S (next_id ts)) (<[next_id ts := mkTimer k pool roll]> (pending ts))).

(** [clearInterval] / [clearTimeout]; an id that is not pending is ignored. *)
Definition clear (i : timer_id) (ts : Timers) : Timers :=
  mkTimers (next_id ts) (delete i (pending ts)).

(** [if (ref.current) clear(ref.current)] *)
Definition clear_ref (r : option timer_id) (ts : Timers) : Timers :=
  match r with
  | Some i => clear i ts
  | None => ts
  end.

(** ** The roll

    The state of the running application: the component state, the timer
    queue, and three records of the development that no handler reads:
    [rolls], the number of rolls that have scheduled timers so far;
    [settled], the owners of the settle callbacks that have run, latest
    first; and [superseded], the owners of the settle timers that a later
    roll cleared while they were pending. *)
Record Machine := mkMachine {
  app : App;
  timers : Timers;
  rolls : nat;
  settled : list nat;
  superseded : list nat;
}.

Definition initial_machine : Machine :=
  mkMachine initial_app initial_timers 0 [] [].

(** Owner of the pending timer a ref points to, if it is still pending. *)
Definition pending_owner (r : option timer_id) (ts : Timers) : list nat :=
  match r with
  | Some i => match pending ts !! i with
              | Some t => [owner t]
              | None => []
              end
  | None => []
  end.

Definition rollDice (m : Machine) : Machine :=
  let a0 := setSelectedTask None (app m) in
  let avail := incomplete (tasks a0) in
  match avail with
  | [] =>
      mkMachine
        (setError (str "No incomplete tasks to pick from. Add some!")
                  (setSelectedTask None a0))
        (timers m) (rolls m) (settled m) (superseded m)
  | _ :: _ =>
      let a1 := setRolling true (setError [] a0) in
      let roll := S (rolls m) in
      let ts1 := clear_ref (intervalRef a1) (timers m) in
      let ts2 := clear_ref (timeoutRef a1) ts1 in
      let '(iid, ts3) := schedule Interval avail roll ts2 in
      let a2 := set_intervalRef (Some iid) a1 in
      let '(tid, ts4) := schedule Timeout avail roll ts3 in
      let a3 := set_timeoutRef (Some tid) a2 in
      mkMachine a3 ts4 roll (settled m)
                (pending_owner (timeoutRef a1) ts1 ++ superseded m)
  end.

(** One run of the interval callback of timer [i];
    [r] is [Math.floor(Math.random() * available.length)].  A timer that is
    no longer pending does not run. *)
Definition preview_tick (i : timer_id) (r : nat) (m : Machine) : Machine :=
  match pending (timers m) !! i with
  | Some (mkTimer Interval avail _) =>
      mkMachine (setTempSelected (avail !! r) (app m))
                (timers m) (rolls m) (settled m) (superseded m)
  | _ => m
  end.

(** The run of the timeout callback of timer [i]; [draw] is the random index
    used by [pickWeightedTask].  A timeout runs once and leaves the queue. *)
Definition settle (i : timer_id) (draw : nat) (m : Machine) : Machine :=
  match pending (timers m) !! i with
  | Some (mkTimer Timeout avail o) =>
      let ts1 := clear i (timers m) in
      let ts2 := clear_ref (intervalRef (app m)) ts1 in
      let final := pickWeightedTask avail draw in
      mkMachine
        (setRolling false (setTempSelected None (setSelectedTask final (app m))))
        ts2 (rolls m) (o :: settled m) (superseded m)
  | _ => m
  end.

Definition on_app (f : App → App) (m : Machine) : Machine :=
  mkMachine (f (app m)) (timers m) (rolls m) (settled m) (superseded m).

(** ** JSON text

    [JSON.parse] and [JSON.stringify] belong to the JavaScript runtime; they
    are written out after ECMA-262 (sections 25.5.1 and 25.5.2) and ECMA-404.
    The result of parsing is kept as the syntax tree of the text: a number
    keeps its literal, an object keeps its members as written. *)

Unset Elimination Schemes.
Inductive json :=
  | JNull
  | JBool (b : bool)
  | JNum (literal : jsstring)
  | JStr (s : jsstring)
  | JArr (elements : list json)
  | JObj (members : list (jsstring * json)).
Set Elimination Schemes.

(** JSON white space: space, tab, line feed, carriage return. *)
Definition is_json_ws (c : N) : bool :=
  (c =? 32) || (c =? 9) || (c =? 10) || (c =? 13).

Fixpoint skip_ws (s : jsstring) : jsstring :=
  match s with
  | c :: r => if is_json_ws c then skip_ws r else s
  | [] => []
  end.

Fixpoint strip_prefix (p s : jsstring) : option jsstring :=
  match p, s with
  | [], _ => Some s
  | a :: p', b :: s' => if a =? b then strip_prefix p' s' else None
  | _ :: _, [] => None
  end.

Definition is_digit (c : N) : bool := (48 <=? c) && (c <=? 57).

Fixpoint span_digits (s : jsstring) : jsstring * jsstring :=
  match s with
  | c :: r =>
      if is_digit c
      then let '(ds, rest) := span_digits r in (c :: ds, rest)
      else ([], s)
  | [] => ([], [])
  end.

Definition hex_value (c : N) : option N :=
  if (48 <=? c) && (c <=? 57) then Some (c - 48)
  else if (97 <=? c) && (c <=? 102) then Some (c - 87)
  else if (65 <=? c) && (c <=? 70) then Some (c - 55)
  else None.

Definition hex4_value (a b c d : N) : option N :=
  match hex_value a, hex_value b, hex_value c, hex_value d with
  | Some x, Some y, Some z, Some w => Some (((x * 16 + y) * 16 + z) * 16 + w)
  | _, _, _, _ => None
  end.

(** The one-letter escapes: a backslash followed by a quote, a backslash,
    a slash, or one of b, f, n, r, t. *)
Definition simple_escape (c : N) : option N :=
  if c =? 34 then Some 34
  else if c =? 92 then Some 92
  else if c =? 47 then Some 47
  else if c =? 98 then Some 8
  else if c =? 102 then Some 12
  else if c =? 110 then Some 10
  else if c =? 114 then Some 13
  else if c =? 116 then Some 9
  else None.

(** The characters of a string literal, after its opening quote and up to
    its closing quote. *)
Fixpoint parse_chars (s : jsstring) : option (jsstring * jsstring) :=
  match s with
  | [] => None
  | c :: r =>
      if c =? 34 then Some ([], r)
      else if c =? 92 then
        match r with
        | e :: r1 =>
            if e =? 117 then
              match r1 with
              | h1 :: h2 :: h3 :: h4 :: r2 =>
                  match hex4_value h1 h2 h3 h4 with
                  | Some u =>
                      match parse_chars r2 with
                      | Some (t, rest) => Some (u :: t, rest)
                      | None => None
                      end
                  | None => None
                  end
              | _ => None
              end
            else
              match simple_escape e with
              | Some u =>
                  match parse_chars r1 with
                  | Some (t, rest) => Some (u :: t, rest)
                  | None => None
                  end
              | None => None
              end
        | [] => None
        end
      else if c <? 32 then None
      else
        match parse_chars r with
        | Some (t, rest) => Some (c :: t, rest)
        | None => None
        end
  end.

(** A number literal: [-]? int frac? exp?, with no leading zero in [int]. *)
Definition parse_int_part (s : jsstring) : option (jsstring * jsstring) :=
  match s with
  | c :: r =>
      if c =? 48 then Some ([48], r)
      else if is_digit c
      then let '(ds, rest) := span_digits r in Some (c :: ds, rest)
      else None
  | [] => None
  end.

Definition parse_frac (s : jsstring) : option (jsstring * jsstring) :=
  match s with
  | c :: r =>
      if c =? 46 then
        match span_digits r with
        | ([], _) => None
        | (ds, rest) => Some (c :: ds, rest)
        end
      else Some ([], s)
  | [] => Some ([], s)
  end.

Definition parse_sign (s : jsstring) : jsstring * jsstring :=
  match s with
  | c :: r => if (c =? 43) || (c =? 45) then ([c], r) else ([], s)
  | [] => ([], s)
  end.

Definition parse_exp (s : jsstring) : option (jsstring * jsstring) :=
  match s with
  | c :: r =>
      if (c =? 101) || (c =? 69) then
        let '(sg, r1) := parse_sign r in
        match span_digits r1 with
        | ([], _) => None
        | (ds, rest) => Some (c :: sg ++ ds, rest)
        end
      else Some ([], s)
  | [] => Some ([], s)
  end.

Definition parse_number (s : jsstring) : option (jsstring * jsstring) :=
  let '(minus, s1) :=
    match s with
    | c :: r => if c =? 45 then ([c], r) else ([], s)
    | [] => ([], s)
    end in
  match parse_int_part s1 with
  | Some (i, s2) =>
      match parse_frac s2 with
      | Some (f, s3) =>
          match parse_exp s3 with
          | Some (e, s4) => Some (minus ++ i ++ f ++ e, s4)
          | None => None
          end
      | None => None
      end
  | None => None
  end.

Inductive parsed (A : Type) :=
  | Parsed (a : A) (rest : jsstring)
  | SyntaxError
  | OutOfFuel.

Arguments Parsed {A} a rest.
Arguments SyntaxError {A}.
Arguments OutOfFuel {A}.

(** Recursive descent over the text.  [fuel] bounds the number of nested
    calls; [JSON_parse] supplies enough of it for the whole text. *)
Fixpoint parse_value (fuel : nat) (s : jsstring) : parsed json :=
  match fuel with
  | O => OutOfFuel
  | S f =>
      match skip_ws s with
      | [] => SyntaxError
      | c :: r =>
          if c =? 34 then
            match parse_chars r with
            | Some (x, rest) => Parsed (JStr x) rest
            | None => SyntaxError
            end
          else if c =? 91 then
            match skip_ws r with
            | d :: r' =>
                if d =? 93 then Parsed (JArr []) r'
                else match parse_elements f r with
                     | Parsed vs rest => Parsed (JArr vs) rest
                     | SyntaxError => SyntaxError
                     | OutOfFuel => OutOfFuel
                     end
            | [] => SyntaxError
            end
          else if c =? 123 then
            match skip_ws r with
            | d :: r' =>
                if d =? 125 then Parsed (JObj []) r'
                else match parse_members f r with
                     | Parsed ms rest => Parsed (JObj ms) rest
                     | SyntaxError => SyntaxError
                     | OutOfFuel => OutOfFuel
                     end
            | [] => SyntaxError
            end
          else if (c =? 45) || is_digit c then
            match parse_number (c :: r) with
            | Some (lit, rest) => Parsed (JNum lit) rest
            | None => SyntaxError
            end
          else
            match strip_prefix (str "null") (c :: r) with
            | Some rest => Parsed JNull rest
            | None =>
            match strip_prefix (str "true") (c :: r) with
            | Some rest => Parsed (JBool true) rest
            | None =>
            match strip_prefix (str "false") (c :: r) with
            | Some rest => Parsed (JBool false) rest
            | None => SyntaxError
            end end end
      end
  end
with parse_elements (fuel : nat) (s : jsstring) : parsed (list json) :=
  match fuel with
  | O => OutOfFuel
  | S f =>
      match parse_value f s with
      | Parsed v r =>
          match skip_ws r with
          | c :: r' =>
              if c =? 44 then
                match parse_elements f r' with
                | Parsed vs rest => Parsed (v :: vs) rest
                | SyntaxError => SyntaxError
                | OutOfFuel => OutOfFuel
                end
              else if c =? 93 then Parsed [v] r'
              else SyntaxError
          | [] => SyntaxError
          end
      | SyntaxError => SyntaxError
      | OutOfFuel => OutOfFuel
      end
  end
with parse_members (fuel : nat) (s : jsstring) : parsed (list (jsstring * json)) :=
  match fuel with
  | O => OutOfFuel
  | S f =>
      match skip_ws s with
      | c :: r =>
          if c =? 34 then
            match parse_chars r with
            | Some (k, r1) =>
                match skip_ws r1 with
                | d :: r2 =>
                    if d =? 58 then
                      match parse_value f r2 with
                      | Parsed v r3 =>
                          match skip_ws r3 with
                          | e :: r4 =>
                              if e =? 44 then
                                match parse_members f r4 with
                                | Parsed ms rest => Parsed ((k, v) :: ms) rest
                                | SyntaxError => SyntaxError
                                | OutOfFuel => OutOfFuel
                                end
                              else if e =? 125 then Parsed [(k, v)] r4
                              else SyntaxError
                          | [] => SyntaxError
                          end
                      | SyntaxError => SyntaxError
                      | OutOfFuel => OutOfFuel
                      end
                    else SyntaxError
                | [] => SyntaxError
                end
            | None => SyntaxError
            end
          else SyntaxError
      | [] => SyntaxError
      end
  end.

Definition parse_fuel (s : jsstring) : nat := 2 * length s + 1.

(** [JSON.parse(text)]: the value, or [None] when the call throws a
    SyntaxError. *)
Definition JSON_parse (s : jsstring) : option json :=
  match parse_value (parse_fuel s) s with
  | Parsed v rest =>
      match skip_ws rest with
      | [] => Some v
      | _ :: _ => None
      end
  | SyntaxError => None
  | OutOfFuel => None
  end.

Definition Array_isArray (v : json) : bool :=
  match v with
  | JArr _ => true
  | _ => false
  end.

(** *** Serialisation of the task list

    [JSON.stringify(tasks)] on an array of task objects, without indentation:
    ECMA-262's SerializeJSONArray, SerializeJSONObject and QuoteJSONString. *)

Definition hex_digit (n : N) : N := if n <? 10 then 48 + n else 87 + n.

(** [\uXXXX], in lower-case hexadecimal. *)
Definition unicode_escape (c : N) : jsstring :=
  [92; 117; hex_digit (c / 4096 mod 16); hex_digit (c / 256 mod 16);
   hex_digit (c / 16 mod 16); hex_digit (c mod 16)].

Definition is_high_surrogate (c : N) : bool := (55296 <=? c) && (c <=? 56319).
Definition is_low_surrogate (c : N) : bool := (56320 <=? c) && (c <=? 57343).

(** One code unit that is not the first half of a surrogate pair. *)
Definition quote_unit (c : N) : jsstring :=
  if c =? 8 then [92; 98]
  else if c =? 9 then [92; 116]
  else if c =? 10 then [92; 110]
  else if c =? 12 then [92; 102]
  else if c =? 13 then [92; 114]
  else if c =? 34 then [92; 34]
  else if c =? 92 then [92; 92]
  else if (c <? 32) || is_high_surrogate c || is_low_surrogate c
  then unicode_escape c
  else [c].

Fixpoint quote_units (s : jsstring) : jsstring :=
  match s with
  | [] => []
  | c :: r =>
      if is_high_surrogate c then
        match r with
        | d :: r' =>
            if is_low_surrogate d then c :: d :: quote_units r'
            else quote_unit c ++ quote_units r
        | [] => quote_unit c
        end
      else quote_unit c ++ quote_units r
  end.

Definition QuoteJSONString (s : jsstring) : jsstring :=
  34 :: quote_units s ++ [34].

Definition member (key : jsstring) (value : jsstring) : jsstring :=
  QuoteJSONString key ++ 58 :: value.

Definition stringify_bool (b : bool) : jsstring :=
  if b then str "true" else str "false".

Definition stringify_task (t : Task) : jsstring :=
  123 :: member (str "id") (QuoteJSONString (id t))
  ++ 44 :: member (str "name") (QuoteJSONString (name t))
  ++ 44 :: member (str "priority") (QuoteJSONString (priority t))
  ++ 44 :: member (str "done") (stringify_bool (done t))
  ++ 44 :: member (str "createdAt") (Number_toString (createdAt t))
  ++ [125].

Fixpoint join_comma (parts : list jsstring) : jsstring :=
  match parts with
  | [] => []
  | [p] => p
  | p :: rest => p ++ 44 :: join_comma rest
  end.

Definition JSON_stringify (ts : list Task) : jsstring :=
  91 :: join_comma (map stringify_task ts) ++ [93].

(** *** Reading task records back

    A parsed object is a task record when it has exactly the five fields of
    the literal of [addTask], in that order, a string under [id], [name] and
    [priority], a boolean under [done] and an integer literal within the safe
    range under [createdAt]. *)

Fixpoint uint_of_digits (ds : jsstring) : option Decimal.uint :=
  match ds with
  | [] => Some Decimal.Nil
  | c :: r =>
      match uint_of_digits r with
      | Some u =>
          if c =? 48 then Some (Decimal.D0 u)
          else if c =? 49 then Some (Decimal.D1 u)
          else if c =? 50 then Some (Decimal.D2 u)
          else if c =? 51 then Some (Decimal.D3 u)
          else if c =? 52 then Some (Decimal.D4 u)
          else if c =? 53 then Some (Decimal.D5 u)
          else if c =? 54 then Some (Decimal.D6 u)
          else if c =? 55 then Some (Decimal.D7 u)
          else if c =? 56 then Some (Decimal.D8 u)
          else if c =? 57 then Some (Decimal.D9 u)
          else None
      | None => None
      end
  end.

(** The value of a number literal without fraction and exponent. *)
Definition integer_of_literal (lit : jsstring) : option Z :=
  match lit with
  | [] => None
  | c :: r =>
      if c =? 45 then
        match r with
        | [] => None
        | _ :: _ => (λ u, Z.of_int (Decimal.Neg u)) <$> uint_of_digits r
        end
      else (λ u, Z.of_int (Decimal.Pos u)) <$> uint_of_digits lit
  end.

Definition task_of_json (v : json) : option Task :=
  match v with
  | JObj [(k1, JStr i); (k2, JStr n); (k3, JStr p); (k4, JBool d); (k5, JNum lit)] =>
      if str_eqb k1 (str "id") && str_eqb k2 (str "name")
         && str_eqb k3 (str "priority") && str_eqb k4 (str "done")
         && str_eqb k5 (str "createdAt")
      then
        match integer_of_literal lit with
        | Some z => if safe_integer z then Some (mkTask i n p d z) else None
        | None => None
        end
      else None
  | _ => None
  end.

Definition tasks_of_json (vs : list json) : option (list Task) :=
  mapM task_of_json vs.

(** ** The persistence backend

    AsyncStorage as the wrappers see it: whether the module offers the two
    functions, whether a call to them currently fails, and the items it
    holds. *)

Record AsyncStorageT := mkStorage {
  has_getItem : bool;
  has_setItem : bool;
  getItem_fails : bool;
  setItem_fails : bool;
  items : gmap jsstring jsstring;
}.

Definition STORAGE_KEY : jsstring := str "@dice_todo_tasks_v1".

(** [safeGetItem]: the stored string, or [null] when the key is absent, the
    function is missing or the call throws. *)
Definition safeGetItem (be : AsyncStorageT) (key : jsstring) : option jsstring :=
  if has_getItem be
  then if getItem_fails be then None else items be !! key
  else None.

(** [safeSetItem]: a missing function or a failing call leaves the items as
    they are. *)
Definition safeSetItem (be : AsyncStorageT) (key value : jsstring) : AsyncStorageT :=
  if has_setItem be
  then if setItem_fails be then be
       else mkStorage (has_getItem be) (has_setItem be) (getItem_fails be)
                      (setItem_fails be) (<[key := value]> (items be))
  else be.

Definition saveTasks (a : App) (be : AsyncStorageT) : AsyncStorageT :=
  safeSetItem be STORAGE_KEY (JSON_stringify (tasks a)).

(** The outcome of [loadTasks].  The handler returns nothing and never
    throws: it either calls [setTasks(parsed)] or leaves the state alone.
    When the payload is an array one of whose elements is not a task record,
    the call [setTasks(parsed)] still runs, but the list it stores is not a
    list of [Task]; the development records this outcome as [Foreign] and
    says nothing about the states after it. *)
Inductive load_outcome :=
  | Loaded (a : App)
  | Foreign (parsed : list json).

Definition loadTasks (be : AsyncStorageT) (a : App) : load_outcome :=
  match safeGetItem be STORAGE_KEY with
  | Some raw =>
      if truthy_str raw then
        match JSON_parse raw with
        | Some (JArr vs) =>
            match tasks_of_json vs with
            | Some ts => Loaded (setTasks (λ _, ts) a)
            | None => Foreign vs
            end
        | Some _ => Loaded a
        | None => Loaded a
        end
      else Loaded a
  | None => Loaded a
  end.

(** A storage module in working order that holds nothing yet. *)
Definition healthy_empty : AsyncStorageT := mkStorage true true false false ∅.

(** What [loadTasks] would store from the text [raw], when that is a list
    of task records. *)
Definition decode_payload (raw : jsstring) : option (list Task) :=
  if truthy_str raw then
    match JSON_parse raw with
    | Some (JArr vs) => tasks_of_json vs
    | _ => None
    end
  else None.

(** ** The running application

    The component together with its collaborators, and the events that drive
    it: the handlers wired to the buttons and text field, the two effects,
    the timer callbacks, and changes of health of the storage module. *)

Record World := mkWorld {
  machine : Machine;
  backend : AsyncStorageT;
}.

Inductive Event :=
  | EvChangeText (s : jsstring)            (* onChangeText of the name field *)
  | EvPressPriority (p : Priority)         (* one of the three priority buttons *)
  | EvShowModal                            (* "+ Add Task" and the floating button *)
  | EvCancel                               (* "Cancel" in the modal *)
  | EvAddTask (now_id now_created : Z)     (* "Add" in the modal *)
  | EvToggleDone (i : jsstring)
  | EvDeleteTask (i : jsstring) (confirmed : bool)
  | EvRollDice
  | EvInterval (i : timer_id) (r : nat)    (* the interval callback runs *)
  | EvTimeout (i : timer_id) (draw : nat)  (* the timeout callback runs *)
  | EvSave                                 (* the effect on [tasks] *)
  | EvLoad                                 (* the mount effect *)
  | EvStorageHealth (has_get has_set get_fails set_fails : bool).

Definition cancel_modal (a : App) : App :=
  resetForm (setError [] (setModalVisible false a)).

Definition set_health (g s gf sf : bool) (be : AsyncStorageT) : AsyncStorageT :=
  mkStorage g s gf sf (items be).

(** One event.  [None] only after a [Foreign] load. *)
Definition step (e : Event) (w : World) : option World :=
  let m := machine w in
  match e with
  | EvChangeText s => Some (mkWorld (on_app (setName s) m) (backend w))
  | EvPressPriority p =>
      Some (mkWorld (on_app (setPriority (priority_label p)) m) (backend w))
  | EvShowModal => Some (mkWorld (on_app (setModalVisible true) m) (backend w))
  | EvCancel => Some (mkWorld (on_app cancel_modal m) (backend w))
  | EvAddTask n1 n2 => Some (mkWorld (on_app (addTask n1 n2) m) (backend w))
  | EvToggleDone i => Some (mkWorld (on_app (toggleDone i) m) (backend w))
  | EvDeleteTask i c => Some (mkWorld (on_app (deleteTask i c) m) (backend w))
  | EvRollDice => Some (mkWorld (rollDice m) (backend w))
  | EvInterval i r => Some (mkWorld (preview_tick i r m) (backend w))
  | EvTimeout i d => Some (mkWorld (settle i d m) (backend w))
  | EvSave => Some (mkWorld m (saveTasks (app m) (backend w)))
  | EvLoad =>
      match loadTasks (backend w) (app m) with
      | Loaded a => Some (mkWorld (on_app (λ _, a) m) (backend w))
      | Foreign _ => None
      end
  | EvStorageHealth g s gf sf =>
      Some (mkWorld m (set_health g s gf sf (backend w)))
  end.

Fixpoint run (es : list Event) (w : World) : option World :=
  match es with
  | [] => Some w
  | e :: rest =>
      match step e w with
      | Some w' => run rest w'
      | None => None
      end
  end.

Definition initial_world (be : AsyncStorageT) : World :=
  mkWorld initial_machine be.

Definition store (w : World) : list Task := tasks (app (machine w)).

Definition payload (w : World) : option jsstring := items (backend w) !! STORAGE_KEY.

(** Whether [addTask] gets past its guard. *)
Definition add_accepted (a : App) : bool :=
  negb (negb (truthy_str (form_name a)) || negb (truthy_str (trim (form_name a)))).

(** The clock readings that became ids in a run from [w]: those of the adds
    that were accepted. *)
Fixpoint id_readings (es : list Event) (w : World) : list Z :=
  match es with
  | [] => []
  | e :: rest =>
      match step e w with
      | Some w' =>
          match e with
          | EvAddTask n _ =>
              if add_accepted (app (machine w))
              then n :: id_readings rest w'
              else id_readings rest w'
          | _ => id_readings rest w'
          end
      | None => []
      end
  end.

Definition enumerated_tasks (ts : list Task) : Prop :=
  Forall (λ t, is_enumerated (priority t)) ts.

(** ** The unmount cleanup and the view

    The function returned by the mount effect, and the parts of the
    rendering that depend on the state: the card above the list, the roll
    button, the priority chip and the priority buttons of the form. *)

(** The cleanup returned by the mount effect. *)
Definition unmount (m : Machine) : Machine :=
  mkMachine (app m)
    (clear_ref (timeoutRef (app m)) (clear_ref (intervalRef (app m)) (timers m)))
    (rolls m) (settled m) (superseded m).

(** The card drawn above the list:
    [selectedTask ? ... : tempSelected ? ... : hint]. *)
Inductive Card :=
  | SelectedCard (t : Task)
  | RollingCard (t : Task)
  | HintCard.

Definition shown_card (a : App) : Card :=
  match selectedTask a with
  | Some t => SelectedCard t
  | None =>
      match tempSelected a with
      | Some t => RollingCard t
      | None => HintCard
      end
  end.

(** [disabled={rolling}] on the roll button. *)
Definition roll_button_disabled (a : App) : bool := rolling a.

(** [renderPriorityChip]: the background colour of the chip and the text it
    shows. *)
Definition renderPriorityChip (p : jsstring) : jsstring * jsstring :=
  let bg := if str_eqb p (str "High") then str "#ff6b6b"
            else if str_eqb p (str "Medium") then str "#ffb86b"
            else str "#6bff95" in
  (bg, p).

(** The three buttons of the form, each with whether it is drawn active
    ([priority === p]). *)
Definition priority_buttons (a : App) : list (jsstring * bool) :=
  map (λ p, (p, str_eqb (form_priority a) p)) [str "High"; str "Medium"; str "Low"].

(** ** Notions used in the statements of Part II *)

Local Close Scope N_scope.

Definition leading_zero (u : Decimal.uint) : bool :=
  match u with Decimal.D0 _ => true | _ => false end.

(** What may follow a number literal without being read as part of it. *)
Definition ends_number (rest : jsstring) : Prop :=
  match rest with
  | [] => True
  | c :: _ => is_digit c = false ∧ c ≠ 46%N ∧ c ≠ 101%N ∧ c ≠ 69%N
  end.

Definition cons_char (c : N) (r : option (jsstring * jsstring)) :
    option (jsstring * jsstring) :=
  match r with
  | Some (t, rest) => Some (c :: t, rest)
  | None => None
  end.

Definition json_of_task (t : Task) : json :=
  JObj [(str "id", JStr (id t)); (str "name", JStr (name t));
        (str "priority", JStr (priority t)); (str "done", JBool (done t));
        (str "createdAt", JNum (Number_toString (createdAt t)))].

Definition working (be : AsyncStorageT) : Prop :=
  has_getItem be = true ∧ has_setItem be = true
  ∧ getItem_fails be = false ∧ setItem_fails be = false.

Inductive store_change (e : Event) (w w' : World) : Prop :=
  | change_none : store w' = store w → store_change e w w'
  | change_add n1 n2 :
      e = EvAddTask n1 n2 →
      store w' = mkTask (Number_toString n1) (trim (form_name (app (machine w))))
                        (form_priority (app (machine w))) false n2 :: store w →
      store_change e w w'
  | change_toggle i : store w' = map (toggle i) (store w) → store_change e w w'
  | change_delete i :
      store w' = filter (λ t, id t ≠ i) (store w) → store_change e w w'
  | change_load raw :
      payload w = Some raw → decode_payload raw = Some (store w') →
      store_change e w w'.

Definition form_priority_of (w : World) : jsstring :=
  form_priority (app (machine w)).

(** The payload is the one found at start-up or a list the application
    serialised. *)
Definition written_by_app (p0 p : option jsstring) : Prop :=
  p = p0 ∨ ∃ ts, p = Some (JSON_stringify ts) ∧ enumerated_tasks ts.

Definition decodes_enumerated (p : option jsstring) : Prop :=
  ∀ raw ts, p = Some raw → decode_payload raw = Some ts → enumerated_tasks ts.

(** The ids of [ts] are pairwise distinct and none of them prints one of
    the clock readings [ns]. *)
Definition ids_fresh_for (ns : list Z) (ts : list Task) : Prop :=
  NoDup (map id ts)
  ∧ ∀ t n, t ∈ ts → n ∈ ns → id t ≠ Number_toString n.

Definition payload_fresh_for (ns : list Z) (p : option jsstring) : Prop :=
  ∀ raw ts, p = Some raw → decode_payload raw = Some ts → ids_fresh_for ns ts.

Definition timers_inv (m : Machine) : Prop :=
  (∀ i t, pending (timers m) !! i = Some t →
     i < next_id (timers m) ∧ owner t = rolls m
     ∧ ((kind t = Interval ∧ intervalRef (app m) = Some i)
        ∨ (kind t = Timeout ∧ timeoutRef (app m) = Some i)))
  ∧ (∀ o, o ∈ settled m ++ superseded m → o ≤ rolls m)
  ∧ ((∃ i t, pending (timers m) !! i = Some t ∧ kind t = Timeout) →
     rolls m ∉ settled m ++ superseded m)
  ∧ NoDup (settled m)
  ∧ (∀ o, o ∈ superseded m → o ∉ settled m)
  ∧ (∀ i, intervalRef (app m) = Some i → timeoutRef (app m) ≠ Some i).

(** One event leaves the timer queue, the refs and the records of the
    rolls alone. *)
Definition same_timing (m m' : Machine) : Prop :=
  timers m' = timers m ∧ rolls m' = rolls m ∧ settled m' = settled m
  ∧ superseded m' = superseded m
  ∧ intervalRef (app m') = intervalRef (app m)
  ∧ timeoutRef (app m') = timeoutRef (app m).

(** The payload is not an array that holds something else than task
    records. *)
Definition in_model (p : option jsstring) : Prop :=
  ∀ raw vs, p = Some raw → truthy_str raw = true →
            JSON_parse raw = Some (JArr vs) → is_Some (tasks_of_json vs).

(** The clock reading stored as creation time is a safe integer. *)
Definition clock_ok (e : Event) : Prop :=
  match e with
  | EvAddTask _ n2 => safe_integer n2 = true
  | _ => True
  end.

Definition safe_tasks (ts : list Task) : Prop :=
  Forall (λ t, safe_integer (createdAt t) = true) ts.

(** The text is not empty and neither begins nor ends with white space. *)
Definition trimmed (s : jsstring) : Prop :=
  ∃ c d, head s = Some c ∧ last s = Some d
         ∧ is_js_whitespace c = false ∧ is_js_whitespace d = false.

Definition well_named (ts : list Task) : Prop :=
  Forall (λ t, trimmed (name t)) ts.

(** The machine is either at rest, with no timer pending and no preview, or
    in a roll, with exactly the interval and the timeout of the two refs
    pending, both holding the pool of the roll. *)
Definition at_rest (m : Machine) : Prop :=
  rolling (app m) = false ∧ pending (timers m) = ∅
  ∧ tempSelected (app m) = None.

Definition in_roll (m : Machine) : Prop :=
  rolling (app m) = true ∧ selectedTask (app m) = None
  ∧ ∃ iid tid avail r,
      intervalRef (app m) = Some iid ∧ timeoutRef (app m) = Some tid
      ∧ iid ≠ tid ∧ avail ≠ [] ∧ Forall (λ t, done t = false) avail
      ∧ pending (timers m)
        = <[tid := mkTimer Timeout avail r]> (<[iid := mkTimer Interval avail r]> ∅).

Definition roll_phase (m : Machine) : Prop :=
  (at_rest m ∨ in_roll m)
  ∧ (∀ t, selectedTask (app m) = Some t → done t = false)
  ∧ (∀ t, tempSelected (app m) = Some t → done t = false).

(** The part of the component state the phases depend on is kept, except
    that the selection may be dropped. *)
Definition same_roll_view (a a' : App) : Prop :=
  rolling a' = rolling a ∧ tempSelected a' = tempSelected a
  ∧ intervalRef a' = intervalRef a ∧ timeoutRef a' = timeoutRef a
  ∧ (selectedTask a' = selectedTask a ∨ selectedTask a' = None).

(** The texts the [error] cell is ever given. *)
Definition known_error (e : jsstring) : Prop :=
  e = [] ∨ e = str "Please enter a task name"
  ∨ e = str "No incomplete tasks to pick from. Add some!".

(* ===================================================================== *)
(** * Part II: properties                                                  *)
(* ===================================================================== *)

(** ** Worked examples *)

Example trim_example : trim (str "  buy milk ") = str "buy milk".
Proof. reflexivity. Qed.

Example Number_toString_examples :
  Number_toString 1700000000000 = str "1700000000000"
  ∧ Number_toString 0 = str "0" ∧ Number_toString (-42) = str "-42".
Proof. repeat split. Qed.

Example pick_three_to_one :
  let a := mkTask (str "A") (str "a") (str "High") false 1 in
  let b := mkTask (str "B") (str "b") (str "Low") false 2 in
  pickWeightedTask [a; b] <$> [0; 1; 2; 3; 4]
  = [Some a; Some a; Some a; Some b; None].
Proof. reflexivity. Qed.

Example JSON_parse_examples :
  JSON_parse (str " [1, -2.5e3, true, null, {}] ")
  = Some (JArr [JNum (str "1"); JNum (str "-2.5e3"); JBool true; JNull; JObj []])
  ∧ JSON_parse (str "[1,]") = None
  ∧ JSON_parse (str "[01]") = None
  ∧ JSON_parse (str "{oops") = None.
Proof. vm_compute. repeat split. Qed.

Example stringify_parse_example :
  let t := mkTask (str "17") [34; 92; 10; 55357]%N (str "Low") true 17 in
  JSON_stringify [t]
  = str "[{" ++ [34]%N ++ str "id" ++ [34]%N ++ str ":" ++ [34]%N ++ str "17"
    ++ [34]%N ++ str "," ++ [34]%N ++ str "name" ++ [34]%N ++ str ":" ++ [34]%N
    ++ [92; 34; 92; 92; 92; 110]%N ++ str "\ud83d" ++ [34]%N ++ str ","
    ++ [34]%N ++ str "priority" ++ [34]%N ++ str ":" ++ [34]%N ++ str "Low"
    ++ [34]%N ++ str "," ++ [34]%N ++ str "done" ++ [34]%N ++ str ":true,"
    ++ [34]%N ++ str "createdAt" ++ [34]%N ++ str ":17}]"
  ∧ decode_payload (JSON_stringify [t]) = Some [t].
Proof. vm_compute. split; reflexivity. Qed.

(** ** Strings *)

Lemma str_eqb_eq (a b : jsstring) : str_eqb a b = true ↔ a = b.
Proof. unfold str_eqb. apply bool_decide_eq_true. Qed.

Lemma str_eqb_neq (a b : jsstring) : str_eqb a b = false ↔ a ≠ b.
Proof. unfold str_eqb. apply bool_decide_eq_false. Qed.

Lemma str_eqb_refl (a : jsstring) : str_eqb a a = true.
Proof. by apply str_eqb_eq. Qed.

Lemma trim_start_blank (s : jsstring) :
  Forall (λ c, is_js_whitespace c = true) s → trim_start s = [].
Proof.
  induction 1 as [|c r Hc _ IH]; [done|].
  cbn [trim_start]. by rewrite Hc.
Qed.

Lemma trim_blank (s : jsstring) :
  Forall (λ c, is_js_whitespace c = true) s → trim s = [].
Proof.
  intros H. unfold trim, trim_end. by rewrite (trim_start_blank s H).
Qed.

Lemma trim_start_nil_blank (s : jsstring) :
  trim_start s = [] → Forall (λ c, is_js_whitespace c = true) s.
Proof.
  induction s as [|c r IH]; [constructor|].
  cbn [trim_start]. destruct (is_js_whitespace c) eqn:Hc; [|done].
  intros H. constructor; auto.
Qed.

Lemma trim_start_head (s : jsstring) c r :
  trim_start s = c :: r → is_js_whitespace c = false.
Proof.
  induction s as [|x l IH]; [done|].
  cbn [trim_start]. destruct (is_js_whitespace x) eqn:Hx; [exact IH|].
  intros [= -> _]. exact Hx.
Qed.

Lemma trim_nil_blank (s : jsstring) :
  trim s = [] → Forall (λ c, is_js_whitespace c = true) s.
Proof.
  unfold trim, trim_end. intros H.
  apply trim_start_nil_blank.
  assert (Hr : trim_start (rev (trim_start s)) = []).
  { destruct (trim_start (rev (trim_start s))) as [|x l]; [done|].
    apply (f_equal length) in H. rewrite length_rev in H. done. }
  apply trim_start_nil_blank, Forall_rev in Hr.
  rewrite rev_involutive in Hr.
  destruct (trim_start s) as [|c r] eqn:E; [done|].
  apply trim_start_head in E. apply Forall_cons in Hr as [Hc _]. congruence.
Qed.

(** ** The store: validation and deletion *)

Lemma setTasks_id (a : App) : setTasks (λ prev, prev) a = a.
Proof. by destruct a. Qed.

Lemma addTask_accepts (n1 n2 : Z) (a : App) :
  trim (form_name a) ≠ [] →
  tasks (addTask n1 n2 a)
  = mkTask (Number_toString n1) (trim (form_name a)) (form_priority a) false n2
    :: tasks a.
Proof.
  intros H. unfold addTask.
  destruct (form_name a) as [|c r] eqn:E; [done|].
  destruct (trim (c :: r)) eqn:E'; [done|]. reflexivity.
Qed.

Lemma addTask_rejects (n1 n2 : Z) (a : App) :
  trim (form_name a) = [] →
  addTask n1 n2 a = setError (str "Please enter a task name") a.
Proof.
  intros H. unfold addTask. rewrite H. cbn [truthy_str negb].
  by rewrite orb_true_r.
Qed.

(** C3.  A name that is empty or made of white space only is rejected,
    whatever the priority selected in the form: the handler reports
    "Please enter a task name" in the [error] cell before it returns, and
    that cell is the only thing it changes; the task list, the rest of the
    component state and the storage backend are as before. *)
Theorem addTask_blank_name_rejected (n1 n2 : Z) (w : World) :
  Forall (λ c, is_js_whitespace c = true) (form_name (app (machine w))) →
  ∃ w', step (EvAddTask n1 n2) w = Some w'
    ∧ app (machine w')
      = setError (str "Please enter a task name") (app (machine w))
    ∧ error (app (machine w')) = str "Please enter a task name"
    ∧ store w' = store w
    ∧ form_priority (app (machine w')) = form_priority (app (machine w))
    ∧ backend w' = backend w
    ∧ timers (machine w') = timers (machine w).
Proof.
  intros H. eexists. split; [reflexivity|].
  cbn. unfold store. cbn.
  rewrite (addTask_rejects n1 n2 _ (trim_blank _ H)).
  by repeat split.
Qed.

Lemma addTask_blank_name_rejected_witness :
  ∃ w', step (EvAddTask 5 5)
             (mkWorld (on_app (setName (str "   ")) initial_machine)
                      (mkStorage true true false false ∅)) = Some w'
    ∧ store w' = [].
Proof.
  destruct (addTask_blank_name_rejected 5 5
             (mkWorld (on_app (setName (str "   ")) initial_machine)
                      (mkStorage true true false false ∅)))
    as (w' & Hs & _ & _ & Ht & _).
  - cbn. repeat constructor.
  - exists w'. split; [exact Hs|]. rewrite Ht. reflexivity.
Defined.

Lemma filter_all_keep {A} (P : A → Prop) `{!∀ x, Decision (P x)} (l : list A) :
  Forall P l → filter P l = l.
Proof.
  induction 1 as [|x l Hx _ IH]; [done|].
  rewrite filter_cons_True by done. by rewrite IH.
Qed.

Lemma occurs_once (X : jsstring) (l : list Task) :
  length (filter (λ t, id t = X) l) = 1 →
  ∃ l1 x l2, l = l1 ++ x :: l2 ∧ id x = X
    ∧ Forall (λ t, id t ≠ X) l1 ∧ Forall (λ t, id t ≠ X) l2.
Proof.
  induction l as [|t l IH]; [done|].
  rewrite filter_cons. destruct (decide (id t = X)) as [Ht|Ht]; cbn.
  - intros [= Hlen]. exists [], t, l. repeat split; [done|constructor|].
    apply length_zero_iff_nil in Hlen.
    apply Forall_forall. intros u Hu Hid.
    assert (u ∈ filter (λ t, id t = X) l) as Hin by (apply list_elem_of_filter; done).
    rewrite Hlen in Hin. by apply not_elem_of_nil in Hin.
  - intros Hlen. destruct (IH Hlen) as (l1 & x & l2 & -> & Hx & H1 & H2).
    exists (t :: l1), x, l2. repeat split; [done|by constructor|done].
Qed.

(** C7.  Deleting (and confirming in the dialog) an id that the list holds
    exactly once removes that one task: the list is one shorter, no task
    with the id is left, and the tasks before and after it are kept as they
    were and in their order.  Deleting an id the list does not hold is not
    an error and leaves the whole state as it was. *)
Theorem deleteTask_removes_exactly_one (X : jsstring) (a : App) :
  (length (filter (λ t, id t = X) (tasks a)) = 1 →
     ∃ l1 x l2, tasks a = l1 ++ x :: l2 ∧ id x = X
       ∧ tasks (deleteTask X true a) = l1 ++ l2
       ∧ S (length (tasks (deleteTask X true a))) = length (tasks a)
       ∧ Forall (λ t, id t ≠ X) (tasks (deleteTask X true a)))
  ∧ (Forall (λ t, id t ≠ X) (tasks a) →
     deleteTask X true a = a ∧ deleteTask X false a = a).
Proof.
  split.
  - intros H. destruct (occurs_once X _ H) as (l1 & x & l2 & E & Hx & H1 & H2).
    exists l1, x, l2. cbn [deleteTask setTasks tasks]. rewrite E.
    rewrite filter_app, filter_cons_False by (intros Hn; by apply Hn).
    rewrite !filter_all_keep by done.
    repeat split; [done|..].
    + rewrite !length_app. cbn. lia.
    + apply Forall_app; done.
  - intros H. split; [|done]. cbn [deleteTask].
    unfold setTasks. rewrite filter_all_keep by done. by destruct a.
Qed.

Lemma deleteTask_removes_exactly_one_witness :
  let t1 := mkTask (str "1") (str "a") (str "High") false 1 in
  let t2 := mkTask (str "2") (str "b") (str "Low") true 2 in
  let t3 := mkTask (str "3") (str "c") (str "Medium") false 3 in
  let a := setTasks (λ _, [t1; t2; t3]) initial_app in
  S (length (tasks (deleteTask (str "2") true a))) = 3
  ∧ deleteTask (str "9") true a = a.
Proof.
  intros t1 t2 t3 a.
  destruct (deleteTask_removes_exactly_one (str "2") a) as [H _].
  destruct (deleteTask_removes_exactly_one (str "9") a) as [_ H'].
  split.
  - destruct H as (l1 & x & l2 & _ & _ & _ & Hlen & _); [reflexivity|].
    exact Hlen.
  - apply H'. repeat constructor; vm_compute; discriminate.
Defined.

(** ** The weighted pick *)

Lemma weight_pos (t : Task) : 1 ≤ weight t.
Proof. unfold weight. repeat case_match; lia. Qed.

Lemma length_expand (pool : list Task) :
  length (expand pool) = total_weight pool.
Proof.
  unfold total_weight. induction pool as [|t pool IH]; [done|].
  cbn. rewrite length_app, length_replicate, IH. done.
Qed.

Lemma elem_of_expand (pool : list Task) (i : jsstring) :
  i ∈ expand pool ↔ ∃ t, t ∈ pool ∧ id t = i.
Proof.
  induction pool as [|t pool IH]; cbn.
  - split; [by intros ?%not_elem_of_nil|]. by intros (? & ?%not_elem_of_nil & _).
  - rewrite elem_of_app, IH. split.
    + intros [[-> _]%elem_of_replicate|(u & ? & ?)].
      * exists t. split; [left|done].
      * exists u. split; [by right|done].
    + intros (u & [->|Hu]%elem_of_cons & <-).
      * left. apply elem_of_replicate. split; [done|].
        pose proof (weight_pos t). lia.
      * right. by exists u.
Qed.

Lemma find_by_id_Some (i : jsstring) (pool : list Task) (t : Task) :
  find_by_id i pool = Some t → t ∈ pool ∧ id t = i.
Proof.
  unfold find_by_id. intros [Hin Heq]%find_some.
  split; [by apply list_elem_of_In|by apply str_eqb_eq].
Qed.

Lemma find_by_id_is_Some (i : jsstring) (pool : list Task) :
  (∃ t, t ∈ pool ∧ id t = i) → is_Some (find_by_id i pool).
Proof.
  intros (t & Hin & Hid). unfold find_by_id.
  destruct (find _ pool) eqn:E; [by eexists|].
  exfalso. apply list_elem_of_In in Hin.
  pose proof (find_none _ _ E _ Hin) as Hn. cbn in Hn.
  apply str_eqb_neq in Hn. done.
Qed.

(** The first task of the pool that carries an id is the one found. *)
Lemma find_by_id_first (l1 l2 : list Task) (t : Task) :
  Forall (λ u, id u ≠ id t) l1 →
  find_by_id (id t) (l1 ++ t :: l2) = Some t.
Proof.
  unfold find_by_id. induction 1 as [|u l1 Hu _ IH]; cbn.
  - by rewrite str_eqb_refl.
  - apply str_eqb_neq in Hu. by rewrite Hu.
Qed.

Lemma find_by_id_NoDup (pool : list Task) (t : Task) :
  NoDup (map id pool) → t ∈ pool → find_by_id (id t) pool = Some t.
Proof.
  intros Hnd [l1 [l2 ->]]%list_elem_of_split.
  apply find_by_id_first.
  rewrite map_app in Hnd. cbn in Hnd.
  apply NoDup_app in Hnd as (_ & Hdis & _).
  apply Forall_forall. intros u Hu Heq.
  apply (Hdis (id u)).
  - apply list_elem_of_fmap. by exists u.
  - rewrite Heq. left.
Qed.

Lemma pick_cases (pool : list Task) (draw : nat) :
  pickWeightedTask pool draw
  = match expand pool !! draw with
    | Some i => find_by_id i pool
    | None => None
    end.
Proof. destruct pool; [|done]. by destruct draw. Qed.

Lemma pick_Some_inv (pool : list Task) (draw : nat) (t : Task) :
  pickWeightedTask pool draw = Some t →
  t ∈ pool ∧ expand pool !! draw = Some (id t).
Proof.
  rewrite pick_cases. destruct (expand pool !! draw) as [i|] eqn:E; [|done].
  intros [Hin <-]%find_by_id_Some. done.
Qed.

(** A draw within the array always yields a task. *)
Lemma pick_in_range (pool : list Task) (draw : nat) :
  draw < length (expand pool) → is_Some (pickWeightedTask pool draw).
Proof.
  intros Hlt. rewrite pick_cases.
  destruct (lookup_lt_is_Some_2 _ _ Hlt) as [i Hi]. rewrite Hi.
  apply find_by_id_is_Some, elem_of_expand.
  by apply list_elem_of_lookup_2 in Hi.
Qed.

Lemma filter_ext_elem {A} (P1 P2 : A → Prop)
    `{!∀ x, Decision (P1 x), !∀ x, Decision (P2 x)} (l : list A) :
  (∀ x, x ∈ l → (P1 x ↔ P2 x)) → filter P1 l = filter P2 l.
Proof.
  induction l as [|a l IH]; [done|]. intros Hiff.
  rewrite !filter_cons.
  rewrite IH by (intros x Hx; apply Hiff; by right).
  destruct (decide (P1 a)) as [H1|H1], (decide (P2 a)) as [H2|H2]; try done;
    exfalso; apply (Hiff a) in H1 || apply (Hiff a) in H2; done || left.
Qed.

Lemma filter_none {A} (P : A → Prop) `{!∀ x, Decision (P x)} (l : list A) :
  (∀ x, x ∈ l → ¬ P x) → filter P l = [].
Proof.
  induction l as [|a l IH]; [done|]. intros Hn.
  rewrite filter_cons_False by (apply Hn; left).
  apply IH. intros x Hx. apply Hn. by right.
Qed.

Lemma count_lookup {A} `{EqDecision A} (l : list A) (x : A) :
  length (filter (λ k, l !! k = Some x) (seq 0 (length l)))
  = length (filter (λ y, y = x) l).
Proof.
  induction l as [|a l IH] using rev_ind; [done|].
  rewrite length_app. cbn [length]. rewrite Nat.add_1_r, seq_S.
  rewrite !filter_app, !length_app. cbn [Nat.add].
  f_equal.
  - rewrite <- IH. f_equal. apply filter_ext_elem.
    intros k Hk%elem_of_seq. rewrite lookup_app_l by lia. done.
  - rewrite !filter_cons, !filter_nil.
    rewrite list_lookup_middle by done.
    destruct (decide (Some a = Some x)), (decide (a = x)); congruence || done.
Qed.

Lemma count_replicate (n : nat) (i j : jsstring) :
  length (filter (λ x, x = j) (replicate n i)) = if decide (i = j) then n else 0.
Proof.
  induction n as [|n IHn]; cbn [replicate]; [by case_decide|].
  rewrite filter_cons. repeat case_decide; cbn; try done; lia.
Qed.

Lemma count_expand (pool : list Task) (t : Task) :
  NoDup (map id pool) → t ∈ pool →
  length (filter (λ i, i = id t) (expand pool)) = weight t.
Proof.
  induction pool as [|u pool IH]; [by intros _ ?%not_elem_of_nil|].
  cbn [map expand]. intros [Hu Hnd]%NoDup_cons Hin.
  rewrite filter_app, length_app, count_replicate.
  apply elem_of_cons in Hin as [->|Hin].
  - rewrite decide_True by done.
    rewrite filter_none; [cbn; lia|].
    intros i [v [Hv Hid]]%elem_of_expand Heq. apply Hu.
    rewrite <- Heq, <- Hid. 
    apply (list_elem_of_fmap_2 id). done.
  - rewrite decide_False, IH; [done..|].
    intros Heq; apply Hu; rewrite Heq. apply (list_elem_of_fmap_2 id). done.
Qed.

Lemma favourable_NoDup (pool : list Task) (t : Task) :
  NoDup (map id pool) → t ∈ pool → favourable pool t = weight t.
Proof.
  intros Hnd Hin. unfold favourable.
  rewrite <- (count_expand pool t Hnd Hin), <- count_lookup.
  f_equal. apply filter_ext_elem. intros k _. split.
  - by intros [_ ?]%pick_Some_inv.
  - intros Hk. rewrite pick_cases, Hk. by apply find_by_id_NoDup.
Qed.

(** C1, as amended.  For every pool whose ids are pairwise distinct and every
    task [t] of it: of the [length (expand pool)] equally likely draws,
    exactly [weight t] make [pickWeightedTask] return [t]; the array holds
    as many entries as the weights of the pool add up to (3 for "High", 2
    for "Medium", 1 otherwise); so the probability of selecting [t] is its
    weight divided by the sum of the weights of the pool. *)
Theorem weighted_pick_probability (pool : list Task) (t : Task) :
  NoDup (map id pool) → t ∈ pool →
  favourable pool t = weight t
  ∧ length (expand pool) = total_weight pool
  ∧ 0 < total_weight pool
  ∧ probability pool t = ratio (weight t) (total_weight pool).
Proof.
  intros Hnd Hin. unfold probability.
  rewrite (favourable_NoDup pool t Hnd Hin), length_expand.
  repeat split.
  apply list_elem_of_split in Hin as (l1 & l2 & ->).
  unfold total_weight. rewrite sum_list_with_app. cbn.
  pose proof (weight_pos t). lia.
Qed.

Lemma weighted_pick_probability_witness :
  let a := mkTask (str "1") (str "a") (str "High") false 1 in
  let b := mkTask (str "2") (str "b") (str "Low") false 2 in
  probability [a; b] a = ratio 3 4 ∧ probability [a; b] b = ratio 1 4.
Proof.
  intros a b.
  assert (Hnd : NoDup (map id [a; b])).
  { apply (bool_decide_unpack _). vm_compute. exact I. }
  split.
  - apply (weighted_pick_probability [a; b] a Hnd). left.
  - apply (weighted_pick_probability [a; b] b Hnd). right. left.
Defined.


Lemma weighted_pick_shared_id_counterexample :
  let a := mkTask (str "5") (str "a") (str "High") false 5 in
  let b := mkTask (str "5") (str "b") (str "Low") false 5 in
  store <$> run [EvChangeText (str "b"); EvPressPriority Low; EvAddTask 5 5;
                 EvChangeText (str "a"); EvPressPriority High; EvAddTask 5 5]
                (initial_world healthy_empty) = Some [a; b]
  ∧ b ∈ [a; b]
  ∧ favourable [a; b] b = 0
  ∧ weight b = 1 ∧ total_weight [a; b] = 4
  ∧ probability [a; b] b ≠ ratio (weight b) (total_weight [a; b]).
Proof.
  intros a b. split; [vm_compute; reflexivity|].
  split; [right; left|].
  split; [vm_compute; reflexivity|].
  split; [vm_compute; reflexivity|].
  split; [vm_compute; reflexivity|].
  intros H. apply (f_equal this) in H. vm_compute in H. discriminate.
Qed.

(** ** The roll *)


Lemma rollDice_empty (m : Machine) :
  incomplete (tasks (app m)) = [] →
  rollDice m
  = mkMachine (setError (str "No incomplete tasks to pick from. Add some!")
                 (setSelectedTask None (setSelectedTask None (app m))))
              (timers m) (rolls m) (settled m) (superseded m).
Proof. unfold incomplete, rollDice. cbn. by intros ->. Qed.

Lemma rollDice_schedules (m : Machine) :
  incomplete (tasks (app m)) ≠ [] →
  let ts := clear_ref (timeoutRef (app m)) (clear_ref (intervalRef (app m)) (timers m)) in
  let iid := next_id ts in
  let tid := S (next_id ts) in
  let avail := incomplete (tasks (app m)) in
  app (rollDice m)
  = set_timeoutRef (Some tid) (set_intervalRef (Some iid)
      (setRolling true (setError [] (setSelectedTask None (app m)))))
  ∧ pending (timers (rollDice m))
    = <[tid := mkTimer Timeout avail (S (rolls m))]>
        (<[iid := mkTimer Interval avail (S (rolls m))]> (pending ts))
  ∧ next_id (timers (rollDice m)) = S (S (next_id ts))
  ∧ rolls (rollDice m) = S (rolls m)
  ∧ settled (rollDice m) = settled m
  ∧ superseded (rollDice m)
    = pending_owner (timeoutRef (app m))
        (clear_ref (intervalRef (app m)) (timers m)) ++ superseded m.
Proof.
  unfold incomplete, rollDice. cbn.
  destruct (filter _ (tasks (app m))) as [|x l] eqn:E; [done|]. intros _.
  cbn. done.
Qed.

Lemma settle_pending (i : nat) (draw : nat) (m : Machine) avail o :
  pending (timers m) !! i = Some (mkTimer Timeout avail o) →
  settle i draw m
  = mkMachine
      (setRolling false (setTempSelected None
         (setSelectedTask (pickWeightedTask avail draw) (app m))))
      (clear_ref (intervalRef (app m)) (clear i (timers m)))
      (rolls m) (o :: settled m) (superseded m).
Proof. unfold settle. by intros ->. Qed.

(** C4.  A roll draws from the tasks that are not done when it starts.  When
    there is none, the roll sets no timer and reports "no selection": the
    selected task is [null] and the empty-pool message is shown.  Otherwise
    it schedules a settle timer that holds that pool; when that timer runs,
    in whatever later state and whatever the draw, the selected task is a
    task of the list that was not done when the roll started, and it is the
    one incomplete task when there is exactly one. *)
Theorem roll_picks_only_incomplete (m : Machine) :
  let avail := filter (λ t, negb (done t)) (tasks (app m)) in
  (avail = [] →
     selectedTask (app (rollDice m)) = None
     ∧ error (app (rollDice m)) = str "No incomplete tasks to pick from. Add some!"
     ∧ timers (rollDice m) = timers m
     ∧ tasks (app (rollDice m)) = tasks (app m))
  ∧ (avail ≠ [] →
     ∃ tid, timeoutRef (app (rollDice m)) = Some tid
       ∧ pending (timers (rollDice m)) !! tid
         = Some (mkTimer Timeout avail (rolls (rollDice m)))
       ∧ selectedTask (app (rollDice m)) = None
       ∧ ∀ m' draw,
           pending (timers m') !! tid
           = Some (mkTimer Timeout avail (rolls (rollDice m))) →
           draw < length (expand avail) →
           ∃ t, selectedTask (app (settle tid draw m')) = Some t
             ∧ t ∈ tasks (app m) ∧ done t = false
             ∧ (∀ x, avail = [x] → t = x)).
Proof.
  intros avail. split.
  - intros H. rewrite (rollDice_empty m H). done.
  - intros H. destruct (rollDice_schedules m H) as (Ha & Hp & _ & Hr & _).
    eexists. split; [by rewrite Ha|].
    assert (Hpend : pending (timers (rollDice m))
        !! S (next_id (clear_ref (timeoutRef (app m))
               (clear_ref (intervalRef (app m)) (timers m))))
        = Some (mkTimer Timeout avail (rolls (rollDice m)))).
    { rewrite Hp, Hr. apply lookup_insert_eq. }
    split; [exact Hpend|]. split; [by rewrite Ha|].
    intros m' draw Hm' Hdraw. rewrite (settle_pending _ _ _ _ _ Hm'). cbn.
    destruct (pick_in_range avail draw Hdraw) as [t Ht].
    exists t. split; [done|].
    apply pick_Some_inv in Ht as [Hin _].
    pose proof Hin as Hin'.
    apply list_elem_of_filter in Hin as [Hd Hin].
    split; [done|]. split; [by destruct (done t)|].
    intros x Hx. rewrite Hx in Hin'. by apply list_elem_of_singleton in Hin'.
Qed.

Lemma roll_picks_only_incomplete_witness :
  let x := mkTask (str "1") (str "a") (str "Medium") false 1 in
  let y := mkTask (str "2") (str "b") (str "High") true 2 in
  let m := on_app (setTasks (λ _, [y; x])) initial_machine in
  selectedTask (app (settle 2 1 (preview_tick 1 0 (rollDice m)))) = Some x
  ∧ selectedTask (app (rollDice (on_app (setTasks (λ _, [y])) initial_machine))) = None.
Proof.
  intros x y m.
  destruct (roll_picks_only_incomplete m) as [_ H].
  destruct (roll_picks_only_incomplete (on_app (setTasks (λ _, [y])) initial_machine))
    as [H0 _].
  split.
  - destruct H as (tid & Htid & _ & _ & Hsel); [vm_compute; discriminate|].
    assert (tid = 2) as -> by (vm_compute in Htid; congruence).
    destruct (Hsel (preview_tick 1 0 (rollDice m)) 1)
      as (t & Ht & _ & _ & Hone); [vm_compute; reflexivity|vm_compute; lia|].
    rewrite Ht. f_equal. by apply Hone.
  - apply H0. reflexivity.
Defined.

(** ** Unrecognised priorities *)








(** ** Decimal numerals *)

Lemma nzhead_shape u :
  Decimal.nzhead u = Decimal.Nil ∨
  (Decimal.nzhead u ≠ Decimal.Nil ∧ leading_zero (Decimal.nzhead u) = false).
Proof.
  induction u; cbn; try (right; split; [discriminate|reflexivity]).
  - by left.
  - exact IHu.
Qed.

Lemma unorm_shape u :
  Decimal.unorm u = Decimal.D0 Decimal.Nil ∨
  (Decimal.unorm u ≠ Decimal.Nil ∧ leading_zero (Decimal.unorm u) = false).
Proof.
  unfold Decimal.unorm.
  destruct (nzhead_shape u) as [->|[Hn Hl]]; [by left|].
  right. destruct (Decimal.nzhead u); try done.
Qed.

Lemma to_uint_shape p :
  Pos.to_uint p ≠ Decimal.Nil ∧ leading_zero (Pos.to_uint p) = false.
Proof.
  assert (E : Pos.to_uint p = Decimal.unorm (Pos.to_uint p)).
  { rewrite <- DecimalPos.Unsigned.to_of, DecimalPos.Unsigned.of_to. done. }
  destruct (unorm_shape (Pos.to_uint p)) as [H|H].
  - exfalso. rewrite <- E in H. by apply (DecimalPos.Unsigned.to_uint_nonzero p).
  - by rewrite <- E in H.
Qed.

Lemma uint_of_digit_units u : uint_of_digits (digit_units u) = Some u.
Proof. induction u; cbn [digit_units uint_of_digits]; [done|by rewrite IHu..]. Qed.

Lemma digit_units_nonempty u : u ≠ Decimal.Nil → digit_units u ≠ [].
Proof. by destruct u. Qed.

Lemma integer_of_Number_toString (z : Z) :
  integer_of_literal (Number_toString z) = Some z.
Proof.
  unfold Number_toString.
  pose proof (DecimalZ.of_to z) as Hz.
  destruct (Z.to_int z) as [u|u] eqn:E.
  - unfold integer_of_literal.
    destruct (digit_units u) as [|c r] eqn:Eu.
    + destruct z as [|p|p]; cbn in E; [by inversion E; subst| |done].
      inversion E; subst. by destruct (digit_units_nonempty _ (proj1 (to_uint_shape p))).
    + assert (Hc : (c =? 45)%N = false).
      { destruct u; cbn in Eu; inversion Eu; subst; done. }
      rewrite Hc, <- Eu, uint_of_digit_units.
      cbn [fmap option_fmap option_map]. by rewrite Hz.
  - cbn [integer_of_literal]. rewrite N.eqb_refl.
    destruct (digit_units u) as [|c r] eqn:Eu.
    + destruct z as [|p|p]; cbn in E; [done..|].
      inversion E; subst. by destruct (digit_units_nonempty _ (proj1 (to_uint_shape p))).
    + rewrite <- Eu, uint_of_digit_units.
      cbn [fmap option_fmap option_map]. by rewrite Hz.
Qed.

Lemma Number_toString_inj (a b : Z) :
  Number_toString a = Number_toString b → a = b.
Proof.
  intros H. apply (f_equal integer_of_literal) in H.
  rewrite !integer_of_Number_toString in H. congruence.
Qed.


Lemma to_int_shape (z : Z) :
  ∃ u, (Z.to_int z = Decimal.Pos u ∨ Z.to_int z = Decimal.Neg u)
    ∧ (u = Decimal.D0 Decimal.Nil
       ∨ (u ≠ Decimal.Nil ∧ leading_zero u = false)).
Proof.
  destruct z as [|p|p]; cbn.
  - exists (Decimal.D0 Decimal.Nil). split; [by left|by left].
  - exists (Pos.to_uint p). split; [by left|right; apply to_uint_shape].
  - exists (Pos.to_uint p). split; [by right|right; apply to_uint_shape].
Qed.

Lemma is_digit_digit_units u :
  Forall (λ c, is_digit c = true) (digit_units u).
Proof. induction u; cbn; constructor; done. Qed.

Lemma span_digits_app (ds rest : jsstring) :
  Forall (λ c, is_digit c = true) ds → ends_number rest →
  span_digits (ds ++ rest) = (ds, rest).
Proof.
  induction 1 as [|c ds Hc _ IH]; intros Hr; cbn.
  - destruct rest as [|c r]; [done|]. cbn. by destruct Hr as [-> _].
  - by rewrite Hc, IH.
Qed.

Lemma parse_int_part_nonzero c ds rest :
  is_digit c = true → (c =? 48)%N = false →
  Forall (λ c, is_digit c = true) ds → ends_number rest →
  parse_int_part (c :: ds ++ rest) = Some (c :: ds, rest).
Proof.
  intros Hc H0 Hd Hr. unfold parse_int_part.
  by rewrite H0, Hc, (span_digits_app _ _ Hd Hr).
Qed.

Lemma parse_int_part_digits u rest :
  u = Decimal.D0 Decimal.Nil ∨ (u ≠ Decimal.Nil ∧ leading_zero u = false) →
  ends_number rest →
  parse_int_part (digit_units u ++ rest) = Some (digit_units u, rest).
Proof.
  intros [->|[Hn Hl]] Hr; [done|].
  pose proof (is_digit_digit_units u) as Hd.
  destruct u; try done; cbn [digit_units app] in *;
    apply Forall_cons in Hd as [_ Hd];
    by apply parse_int_part_nonzero.
Qed.

Lemma parse_frac_none rest : ends_number rest → parse_frac rest = Some ([], rest).
Proof.
  destruct rest as [|c r]; [done|]. intros (_ & H & _). cbn.
  apply N.eqb_neq in H. by rewrite H.
Qed.

Lemma parse_exp_none rest : ends_number rest → parse_exp rest = Some ([], rest).
Proof.
  destruct rest as [|c r]; [done|]. intros (_ & _ & H1 & H2). cbn.
  apply N.eqb_neq in H1, H2. by rewrite H1, H2.
Qed.

Lemma parse_number_toString (z : Z) (rest : jsstring) :
  ends_number rest →
  parse_number (Number_toString z ++ rest) = Some (Number_toString z, rest).
Proof.
  intros Hr. unfold Number_toString.
  destruct (to_int_shape z) as (u & [->| ->] & Hu).
  - unfold parse_number.
    assert (Hhead : match digit_units u ++ rest with
                    | c :: r => if (c =? 45)%N then ([c], r) else ([], digit_units u ++ rest)
                    | [] => ([], digit_units u ++ rest)
                    end = ([], digit_units u ++ rest)).
    { destruct u; cbn; try done. by destruct rest as [|c r]; [|destruct Hu as [|[]]]. }
    rewrite Hhead, (parse_int_part_digits _ _ Hu Hr).
    rewrite (parse_frac_none _ Hr), (parse_exp_none _ Hr).
    by rewrite !app_nil_r.
  - change ((45%N :: digit_units u) ++ rest) with (45%N :: (digit_units u ++ rest)).
    unfold parse_number. rewrite N.eqb_refl. cbv beta iota.
    rewrite (parse_int_part_digits _ _ Hu Hr).
    rewrite (parse_frac_none _ Hr), (parse_exp_none _ Hr).
    by rewrite !app_nil_r.
Qed.

Lemma Number_toString_head (z : Z) :
  ∃ c r, Number_toString z = c :: r ∧ ((c =? 45)%N || is_digit c) = true
    ∧ is_json_ws c = false ∧ (c =? 34)%N = false ∧ (c =? 91)%N = false
    ∧ (c =? 123)%N = false.
Proof.
  unfold Number_toString.
  destruct (to_int_shape z) as (u & [->| ->] & Hu).
  - destruct u; try (eexists _, _; split; [reflexivity|done]).
    by destruct Hu as [|[]].
  - eexists _, _; split; [reflexivity|done].
Qed.

(** ** Hexadecimal escapes *)

Lemma hex_value_hex_digit (n : N) : (n < 16)%N → hex_value (hex_digit n) = Some n.
Proof.
  intros H. destruct n as [|p]; [done|].
  do 4 (destruct p as [p|p|]; try done); lia.
Qed.

Lemma hex4_arith (c : N) :
  (c < 65536)%N →
  ((((c / 4096 mod 16) * 16 + c / 256 mod 16) * 16 + c / 16 mod 16) * 16
   + c mod 16 = c)%N.
Proof.
  intros Hc.
  assert (Ha : (c / 256 = c / 16 / 16)%N) by (by rewrite N.Div0.div_div).
  assert (Hb : (c / 4096 = c / 16 / 16 / 16)%N) by (by rewrite !N.Div0.div_div).
  assert (Hz : (c / 16 / 16 / 16 / 16 = 0)%N).
  { rewrite !N.Div0.div_div. by apply N.div_small. }
  rewrite Ha, Hb.
  pose proof (N.div_mod c 16 ltac:(discriminate)) as E1.
  pose proof (N.div_mod (c / 16) 16 ltac:(discriminate)) as E2.
  pose proof (N.div_mod (c / 16 / 16) 16 ltac:(discriminate)) as E3.
  pose proof (N.div_mod (c / 16 / 16 / 16) 16 ltac:(discriminate)) as E4.
  rewrite Hz in E4.
  revert E1 E2 E3 E4.
  generalize (c mod 16)%N ((c / 16) mod 16)%N ((c / 16 / 16) mod 16)%N
             ((c / 16 / 16 / 16) mod 16)%N.
  generalize (c / 16 / 16 / 16)%N. generalize (c / 16 / 16)%N.
  generalize (c / 16)%N. intros. lia.
Qed.

Lemma hex4_unicode_escape (c : N) :
  (c < 65536)%N →
  hex4_value (hex_digit (c / 4096 mod 16)) (hex_digit (c / 256 mod 16))
             (hex_digit (c / 16 mod 16)) (hex_digit (c mod 16)) = Some c.
Proof.
  intros Hc. unfold hex4_value.
  rewrite !hex_value_hex_digit by (apply N.mod_lt; done).
  f_equal. by apply hex4_arith.
Qed.


(** ** String literals *)

Lemma parse_chars_verbatim (c : N) (tail : jsstring) :
  (c =? 34)%N = false → (c =? 92)%N = false → (c <? 32)%N = false →
  parse_chars (c :: tail) = cons_char c (parse_chars tail).
Proof. intros H1 H2 H3. cbn [parse_chars]. by rewrite H1, H2, H3. Qed.

Lemma parse_chars_hex (h1 h2 h3 h4 : N) (tail : jsstring) :
  parse_chars (92%N :: 117%N :: h1 :: h2 :: h3 :: h4 :: tail)
  = match hex4_value h1 h2 h3 h4 with
    | Some u => cons_char u (parse_chars tail)
    | None => None
    end.
Proof. reflexivity. Qed.

Lemma parse_chars_unicode_escape (c : N) (tail : jsstring) :
  (c < 65536)%N →
  parse_chars (unicode_escape c ++ tail) = cons_char c (parse_chars tail).
Proof.
  intros Hc. unfold unicode_escape.
  etrans; [apply parse_chars_hex|]. by rewrite (hex4_unicode_escape c Hc).
Qed.

Lemma parse_chars_quote_unit (c : N) (tail : jsstring) :
  parse_chars (quote_unit c ++ tail) = cons_char c (parse_chars tail).
Proof.
  unfold quote_unit.
  repeat (match goal with
          | |- context [if (c =? ?k)%N then _ else _] =>
              destruct (N.eqb_spec c k) as [->|?]; [reflexivity|]
          end).
  destruct ((c <? 32)%N || is_high_surrogate c || is_low_surrogate c) eqn:E.
  - apply parse_chars_unicode_escape.
    apply orb_true_iff in E as [[E|E]%orb_true_iff|E].
    + apply N.ltb_lt in E. lia.
    + apply andb_true_iff in E as [_ E%N.leb_le]. lia.
    + apply andb_true_iff in E as [_ E%N.leb_le]. lia.
  - apply orb_false_iff in E as [[E1 _]%orb_false_iff _].
    apply parse_chars_verbatim; [by apply N.eqb_neq..|done].
Qed.

Lemma parse_chars_surrogate (c : N) (tail : jsstring) :
  is_high_surrogate c = true ∨ is_low_surrogate c = true →
  parse_chars (c :: tail) = cons_char c (parse_chars tail).
Proof.
  intros H.
  assert (55296 <= c)%N as Hc.
  { destruct H as [H|H]; apply andb_true_iff in H as [H%N.leb_le _]; lia. }
  apply parse_chars_verbatim.
  - apply N.eqb_neq. lia.
  - apply N.eqb_neq. lia.
  - apply N.ltb_ge. lia.
Qed.

Lemma parse_chars_quote_units (n : nat) (s rest : jsstring) :
  length s ≤ n →
  parse_chars (quote_units s ++ 34%N :: rest) = Some (s, rest).
Proof.
  revert s. induction n as [|n IH]; intros s Hn.
  { destruct s; [done|cbn in Hn; lia]. }
  destruct s as [|c r]; [done|]. cbn [quote_units].
  assert (Hr : parse_chars (quote_unit c ++ quote_units r ++ 34%N :: rest)
               = Some (c :: r, rest)).
  { rewrite parse_chars_quote_unit, IH by (cbn in Hn; lia). done. }
  destruct (is_high_surrogate c) eqn:Hh; [|by rewrite <- app_assoc].
  destruct r as [|d r'].
  { cbn [quote_units] in Hr. by rewrite app_nil_l in Hr. }
  destruct (is_low_surrogate d) eqn:Hl; [|by rewrite <- app_assoc].
  rewrite <- !app_comm_cons.
  rewrite (parse_chars_surrogate c) by (by left).
  rewrite (parse_chars_surrogate d) by (by right).
  rewrite IH by (cbn in Hn; lia). done.
Qed.

Lemma QuoteJSONString_app (s rest : jsstring) :
  QuoteJSONString s ++ rest = 34%N :: quote_units s ++ 34%N :: rest.
Proof. unfold QuoteJSONString. cbn. by rewrite <- app_assoc. Qed.


(** ** Values *)

Lemma parse_value_string (f : nat) (s rest : jsstring) :
  parse_value (S f) (QuoteJSONString s ++ rest) = Parsed (JStr s) rest.
Proof.
  rewrite QuoteJSONString_app.
  change (parse_value (S f) (34%N :: quote_units s ++ 34%N :: rest))
    with (match parse_chars (quote_units s ++ 34%N :: rest) with
          | Some (x, r) => Parsed (JStr x) r
          | None => SyntaxError
          end).
  by rewrite (parse_chars_quote_units (length s)).
Qed.

Lemma parse_value_bool (f : nat) (b : bool) (rest : jsstring) :
  parse_value (S f) (stringify_bool b ++ rest) = Parsed (JBool b) rest.
Proof. by destruct b. Qed.

Lemma parse_value_number (f : nat) (z : Z) (rest : jsstring) :
  ends_number rest →
  parse_value (S f) (Number_toString z ++ rest)
  = Parsed (JNum (Number_toString z)) rest.
Proof.
  intros Hr. pose proof (parse_number_toString z rest Hr) as Hp.
  destruct (Number_toString_head z) as (c & r & E & H1 & H2 & H3 & H4 & H5).
  rewrite E in *. rewrite <- app_comm_cons in *.
  cbn [parse_value skip_ws]. rewrite H2, H3, H4, H5, H1, Hp. done.
Qed.

Lemma skip_ws_cons (c : N) (r : jsstring) :
  is_json_ws c = false → skip_ws (c :: r) = c :: r.
Proof. intros H. cbn [skip_ws]. by rewrite H. Qed.

Lemma parse_members_quote (f : nat) (r : jsstring) :
  parse_members (S f) (34%N :: r)
  = match parse_chars r with
    | Some (k, r1) =>
        match skip_ws r1 with
        | d :: r2 =>
            if (d =? 58)%N then
              match parse_value f r2 with
              | Parsed v r3 =>
                  match skip_ws r3 with
                  | e :: r4 =>
                      if (e =? 44)%N then
                        match parse_members f r4 with
                        | Parsed ms rest => Parsed ((k, v) :: ms) rest
                        | SyntaxError => SyntaxError
                        | OutOfFuel => OutOfFuel
                        end
                      else if (e =? 125)%N then Parsed [(k, v)] r4
                      else SyntaxError
                  | [] => SyntaxError
                  end
              | SyntaxError => SyntaxError
              | OutOfFuel => OutOfFuel
              end
            else SyntaxError
        | [] => SyntaxError
        end
    | None => SyntaxError
    end.
Proof. reflexivity. Qed.

Lemma parse_members_more (f : nat) (k vtext more : jsstring) v ms rest :
  parse_value f (vtext ++ 44%N :: more) = Parsed v (44%N :: more) →
  parse_members f more = Parsed ms rest →
  parse_members (S f) (member k vtext ++ 44%N :: more) = Parsed ((k, v) :: ms) rest.
Proof.
  intros Hv Hm. unfold member.
  rewrite <- app_assoc, QuoteJSONString_app, <- app_comm_cons.
  rewrite parse_members_quote, (parse_chars_quote_units (length k)) by done.
  rewrite skip_ws_cons by done. change (58 =? 58)%N with true. cbv iota.
  rewrite Hv, skip_ws_cons by done. change (44 =? 44)%N with true. cbv iota.
  by rewrite Hm.
Qed.

Lemma parse_members_last (f : nat) (k vtext rest : jsstring) v :
  parse_value f (vtext ++ 125%N :: rest) = Parsed v (125%N :: rest) →
  parse_members (S f) (member k vtext ++ 125%N :: rest) = Parsed [(k, v)] rest.
Proof.
  intros Hv. unfold member.
  rewrite <- app_assoc, QuoteJSONString_app, <- app_comm_cons.
  rewrite parse_members_quote, (parse_chars_quote_units (length k)) by done.
  rewrite skip_ws_cons by done. change (58 =? 58)%N with true. cbv iota.
  rewrite Hv, skip_ws_cons by done. done.
Qed.

Lemma parse_value_brace (f : nat) (r : jsstring) :
  parse_value (S f) (123%N :: 34%N :: r)
  = match parse_members f (34%N :: r) with
    | Parsed ms rest => Parsed (JObj ms) rest
    | SyntaxError => SyntaxError
    | OutOfFuel => OutOfFuel
    end.
Proof. reflexivity. Qed.

Lemma member_head (k v : jsstring) : ∃ r, member k v = 34%N :: r.
Proof. by eexists. Qed.

Lemma stringify_task_head (t : Task) : ∃ r, stringify_task t = 123%N :: 34%N :: r.
Proof. by eexists. Qed.

Lemma parse_value_task (f : nat) (t : Task) (rest : jsstring) :
  parse_value (7 + f) (stringify_task t ++ rest) = Parsed (json_of_task t) rest.
Proof.
  unfold stringify_task.
  rewrite <- app_comm_cons.
  destruct (member_head (str "id") (QuoteJSONString (id t))) as [r0 E0].
  rewrite !(app_comm_cons _ _ 44%N), <- !app_assoc.
  rewrite <- !app_comm_cons.
  change (7 + f) with (S (6 + f)).
  rewrite E0, <- app_comm_cons, parse_value_brace, app_comm_cons, <- E0.
  change (6 + f) with (S (S (S (S (S (S f)))))).
  erewrite parse_members_more; [reflexivity|apply parse_value_string|].
  erewrite parse_members_more; [reflexivity|apply parse_value_string|].
  erewrite parse_members_more; [reflexivity|apply parse_value_string|].
  erewrite parse_members_more; [reflexivity|apply parse_value_bool|].
  cbn [app].
  erewrite parse_members_last; [reflexivity|].
  by apply parse_value_number.
Qed.


(** ** The task array *)

Lemma parse_elements_S (f : nat) (s : jsstring) :
  parse_elements (S f) s
  = match parse_value f s with
    | Parsed v r =>
        match skip_ws r with
        | c :: r' =>
            if (c =? 44)%N then
              match parse_elements f r' with
              | Parsed vs rest => Parsed (v :: vs) rest
              | SyntaxError => SyntaxError
              | OutOfFuel => OutOfFuel
              end
            else if (c =? 93)%N then Parsed [v] r'
            else SyntaxError
        | [] => SyntaxError
        end
    | SyntaxError => SyntaxError
    | OutOfFuel => OutOfFuel
    end.
Proof. reflexivity. Qed.

Lemma parse_elements_tasks (ts : list Task) (f : nat) (rest : jsstring) :
  ts ≠ [] →
  parse_elements (7 + length ts + f)
                 (join_comma (map stringify_task ts) ++ 93%N :: rest)
  = Parsed (map json_of_task ts) rest.
Proof.
  induction ts as [|t ts IH]; [done|]. intros _.
  change (7 + length (t :: ts) + f) with (S (7 + (length ts + f))).
  rewrite parse_elements_S.
  destruct ts as [|t' ts].
  - cbn [map join_comma]. rewrite parse_value_task.
    by rewrite skip_ws_cons.
  - change (join_comma (map stringify_task (t :: t' :: ts)))
      with (stringify_task t ++ 44%N :: join_comma (map stringify_task (t' :: ts))).
    rewrite <- app_assoc, <- app_comm_cons, parse_value_task.
    rewrite skip_ws_cons by done. change (44 =? 44)%N with true. cbv iota.
    replace (7 + (length (t' :: ts) + f)) with (7 + length (t' :: ts) + f) by lia.
    by rewrite IH.
  Qed.

Lemma parse_value_bracket (f : nat) (r : jsstring) :
  parse_value (S f) (91%N :: 123%N :: r)
  = match parse_elements f (123%N :: r) with
    | Parsed vs rest => Parsed (JArr vs) rest
    | SyntaxError => SyntaxError
    | OutOfFuel => OutOfFuel
    end.
Proof. reflexivity. Qed.

Lemma join_comma_tasks_head (t : Task) (ts : list Task) :
  ∃ r, join_comma (map stringify_task (t :: ts)) = 123%N :: r.
Proof. destruct ts; by eexists. Qed.

Lemma length_join_comma_tasks (ts : list Task) :
  2 * length ts ≤ length (join_comma (map stringify_task ts)).
Proof.
  induction ts as [|t ts IH]; [done|].
  destruct (stringify_task_head t) as [r Er].
  destruct ts as [|t' ts].
  - cbn [map join_comma]. rewrite Er. cbn. lia.
  - change (join_comma (map stringify_task (t :: t' :: ts)))
      with (stringify_task t ++ 44%N :: join_comma (map stringify_task (t' :: ts))).
    rewrite length_app, Er. cbn [length] in *. lia.
Qed.

(** Parsing the text written by [JSON.stringify(tasks)] gives back the array
    of the task objects. *)
Lemma JSON_parse_stringify (ts : list Task) :
  JSON_parse (JSON_stringify ts) = Some (JArr (map json_of_task ts)).
Proof.
  destruct ts as [|t ts]; [reflexivity|].
  unfold JSON_parse, JSON_stringify, parse_fuel.
  pose proof (length_join_comma_tasks (t :: ts)) as Hlen.
  destruct (join_comma_tasks_head t ts) as [r Er].
  set (body := join_comma (map stringify_task (t :: ts))) in *.
  set (n := length (t :: ts)) in *.
  assert (1 ≤ n) by (subst n; cbn; lia).
  replace (2 * length (91%N :: body ++ [93%N]) + 1)
    with (S (7 + n + (2 * length body - n - 3)))
    by (cbn [length]; rewrite length_app; cbn [length]; lia).
  pose proof (parse_elements_tasks (t :: ts) (2 * length body - n - 3) []
               ltac:(done)) as Hp.
  fold body in Hp. fold n in Hp.
  revert Hp. rewrite Er, <- app_comm_cons. intros Hp.
  by rewrite parse_value_bracket, Hp.
Qed.

Lemma task_of_json_of_task (t : Task) :
  task_of_json (json_of_task t)
  = if safe_integer (createdAt t) then Some t else None.
Proof.
  destruct t as [i n p d z]. unfold json_of_task, task_of_json.
  cbn [id name priority done createdAt].
  rewrite !str_eqb_refl, integer_of_Number_toString. done.
Qed.

Lemma tasks_of_json_of_tasks (ts : list Task) :
  Forall (λ t, safe_integer (createdAt t) = true) ts →
  tasks_of_json (map json_of_task ts) = Some ts.
Proof.
  intros H. apply mapM_Some.
  induction H as [|t ts Ht _ IH]; constructor; [|done].
  by rewrite task_of_json_of_task, Ht.
Qed.

Lemma tasks_of_json_inv (ts ts' : list Task) :
  tasks_of_json (map json_of_task ts) = Some ts' → ts' = ts.
Proof.
  intros H%mapM_Some. revert ts' H.
  induction ts as [|t ts IH]; intros ts' H; inversion H as [|? y ? l Hy Hl]; subst.
  - done.
  - rewrite task_of_json_of_task in Hy.
    destruct (safe_integer (createdAt t)); [|done].
    injection Hy as <-. f_equal. by apply IH.
Qed.

Lemma JSON_stringify_truthy (ts : list Task) :
  truthy_str (JSON_stringify ts) = true.
Proof. done. Qed.

Lemma decode_payload_stringify (ts : list Task) :
  Forall (λ t, safe_integer (createdAt t) = true) ts →
  decode_payload (JSON_stringify ts) = Some ts.
Proof.
  intros H. unfold decode_payload.
  rewrite JSON_stringify_truthy, JSON_parse_stringify.
  by apply tasks_of_json_of_tasks.
Qed.

Lemma decode_payload_stringify_inv (ts ts' : list Task) :
  decode_payload (JSON_stringify ts) = Some ts' → ts' = ts.
Proof.
  unfold decode_payload.
  rewrite JSON_stringify_truthy, JSON_parse_stringify.
  apply tasks_of_json_inv.
Qed.

(** ** The parser never runs out of fuel *)

Lemma length_skip_ws (s : jsstring) : length (skip_ws s) ≤ length s.
Proof.
  induction s as [|c r IH]; [done|]. cbn [skip_ws].
  destruct (is_json_ws c); cbn [length]; lia.
Qed.

Lemma skip_ws_cons_length (s : jsstring) c r :
  skip_ws s = c :: r → length r < length s.
Proof.
  intros H. pose proof (length_skip_ws s) as Hl. rewrite H in Hl.
  cbn [length] in Hl. lia.
Qed.

Lemma length_parse_chars_bounded (n : nat) (s x r : jsstring) :
  length s ≤ n → parse_chars s = Some (x, r) → length r < length s.
Proof.
  revert s x r. induction n as [|n IH]; intros s x r Hn.
  { destruct s; [done|cbn in Hn; lia]. }
  destruct s as [|c s']; [done|]. cbn [parse_chars length] in *.
  intros H.
  repeat match type of H with
  | (if ?b then _ else _) = _ => destruct b
  | match ?l with [] => _ | _ :: _ => _ end = _ => destruct l; cbn [length] in *
  | match ?o with Some _ => _ | None => _ end = _ =>
      let E := fresh "E" in destruct o as [[? ?]|] eqn:E; [apply IH in E; [|lia]|]
  | match hex4_value ?a ?b ?c ?d with Some _ => _ | None => _ end = _ =>
      destruct (hex4_value a b c d)
  | match simple_escape ?a with Some _ => _ | None => _ end = _ =>
      destruct (simple_escape a)
  end; try done; simplify_eq; cbn [length] in *; lia.
Qed.

Lemma length_parse_chars (s x r : jsstring) :
  parse_chars s = Some (x, r) → length r < length s.
Proof. by apply (length_parse_chars_bounded (length s)). Qed.

Lemma length_span_digits (s : jsstring) :
  length (span_digits s).2 ≤ length s.
Proof.
  induction s as [|c r IH]; [done|]. cbn [span_digits].
  destruct (is_digit c); [|done].
  destruct (span_digits r) as [ds rest]. cbn in *. lia.
Qed.

Lemma length_parse_number (s l r : jsstring) :
  parse_number s = Some (l, r) → length r < length s.
Proof.
  unfold parse_number, parse_int_part, parse_frac, parse_exp, parse_sign.
  intros H.
  assert (Hsp : ∀ t, length (span_digits t).2 ≤ length t) by apply length_span_digits.
  repeat match type of H with
  | context [span_digits ?t] =>
      let E := fresh "E" in
      pose proof (Hsp t); destruct (span_digits t) as [? ?] eqn:E; cbn [snd] in *
  | context [if ?b then _ else _] => destruct b
  | context [match ?l with [] => _ | _ :: _ => _ end] =>
      is_var l; destruct l; cbn [length] in *
  end; try done; simplify_eq; cbn [length] in *; try lia.
Qed.

Lemma length_strip_prefix (p s r : jsstring) :
  strip_prefix p s = Some r → length r ≤ length s.
Proof.
  revert s. induction p as [|a p IH]; intros s; cbn [strip_prefix].
  - by intros [= <-].
  - destruct s as [|b s]; [done|]. destruct (a =? b)%N; [|done].
    intros H%IH. cbn [length]. lia.
Qed.

Lemma length_strip_prefix_cons (a : N) (p s r : jsstring) :
  strip_prefix (a :: p) s = Some r → length r < length s.
Proof.
  cbn [strip_prefix]. destruct s as [|b s]; [done|].
  destruct (a =? b)%N; [|done]. intros H%length_strip_prefix. cbn [length]. lia.
Qed.

Local Ltac parser_facts :=
  repeat match goal with
  | H : skip_ws _ = _ :: _ |- _ => apply skip_ws_cons_length in H
  | H : parse_chars _ = Some _ |- _ => apply length_parse_chars in H
  | H : parse_number _ = Some _ |- _ => apply length_parse_number in H
  | H : strip_prefix (str _) _ = Some _ |- _ =>
      apply length_strip_prefix_cons in H
  end.

Lemma parse_progress (f : nat) :
  (∀ s v r, parse_value f s = Parsed v r → length r < length s)
  ∧ (∀ s v r, parse_elements f s = Parsed v r → length r < length s)
  ∧ (∀ s v r, parse_members f s = Parsed v r → length r < length s).
Proof.
  induction f as [|f (IHv & IHe & IHm)]; [by repeat split|].
  split; [|split]; intros s v r H.
  - cbn [parse_value] in H.
    repeat case_match; simplify_eq;
      repeat match goal with
      | H : parse_elements f _ = Parsed _ _ |- _ => apply IHe in H
      | H : parse_members f _ = Parsed _ _ |- _ => apply IHm in H
      end; parser_facts; cbn [length] in *; lia.
  - cbn [parse_elements] in H.
    repeat case_match; simplify_eq;
      repeat match goal with
      | H : parse_value f _ = Parsed _ _ |- _ => apply IHv in H
      | H : parse_elements f _ = Parsed _ _ |- _ => apply IHe in H
      end; parser_facts; cbn [length] in *; lia.
  - cbn [parse_members] in H.
    repeat case_match; simplify_eq;
      repeat match goal with
      | H : parse_value f _ = Parsed _ _ |- _ => apply IHv in H
      | H : parse_members f _ = Parsed _ _ |- _ => apply IHm in H
      end; parser_facts; cbn [length] in *; lia.
Qed.

Lemma parse_fuel_enough (f : nat) :
  (∀ s, 2 * length s + 1 ≤ f → parse_value f s ≠ OutOfFuel)
  ∧ (∀ s, 2 * length s + 2 ≤ f → parse_elements f s ≠ OutOfFuel)
  ∧ (∀ s, 2 * length s + 1 ≤ f → parse_members f s ≠ OutOfFuel).
Proof.
  induction f as [|f (IHv & IHe & IHm)].
  { repeat split; intros s Hs; lia. }
  destruct (parse_progress f) as (Pv & Pe & Pm).
  split; [|split]; intros s Hs H.
  - cbn [parse_value] in H.
    repeat case_match; simplify_eq;
      repeat match goal with
      | H : parse_elements f ?x = OutOfFuel |- _ => apply (IHe x) in H; [done|]
      | H : parse_members f ?x = OutOfFuel |- _ => apply (IHm x) in H; [done|]
      end; parser_facts; cbn [length] in *; lia.
  - cbn [parse_elements] in H.
    repeat case_match; simplify_eq;
      repeat match goal with
      | H : parse_value f _ = Parsed _ _ |- _ => apply Pv in H
      end;
      repeat match goal with
      | H : parse_value f ?x = OutOfFuel |- _ => apply (IHv x) in H; [done|]
      | H : parse_elements f ?x = OutOfFuel |- _ => apply (IHe x) in H; [done|]
      end; parser_facts; cbn [length] in *; lia.
  - cbn [parse_members] in H.
    repeat case_match; simplify_eq;
      repeat match goal with
      | H : parse_value f _ = Parsed _ _ |- _ => apply Pv in H
      end;
      repeat match goal with
      | H : parse_value f ?x = OutOfFuel |- _ => apply (IHv x) in H; [done|]
      | H : parse_members f ?x = OutOfFuel |- _ => apply (IHm x) in H; [done|]
      end; parser_facts; cbn [length] in *; lia.
Qed.

(** [JSON_parse] gives every text enough fuel: a result [None] always stands
    for a SyntaxError. *)
Lemma JSON_parse_fuel (s : jsstring) : parse_value (parse_fuel s) s ≠ OutOfFuel.
Proof. apply (parse_fuel_enough (parse_fuel s)). unfold parse_fuel. lia. Qed.

(** ** Saving and loading *)

Lemma loadTasks_decode (be : AsyncStorageT) (a : App) (raw : jsstring) (ts : list Task) :
  safeGetItem be STORAGE_KEY = Some raw →
  decode_payload raw = Some ts →
  loadTasks be a = Loaded (setTasks (λ _, ts) a).
Proof.
  intros Hg Hd. unfold loadTasks. rewrite Hg.
  unfold decode_payload in Hd.
  destruct (truthy_str raw); [|done].
  destruct (JSON_parse raw) as [[]|]; try done. by rewrite Hd.
Qed.

(** C5.  With a storage module in working order, saving a task list and then
    loading stores exactly that list: every task comes back with the same
    id, name, priority and done flag (and creation time), in the same
    order, the empty list included.  The creation times are required to be
    safe integers, as every [Date.now()] is. *)
Theorem save_then_load_round_trip (be : AsyncStorageT) (a a' : App) :
  working be →
  Forall (λ t, safe_integer (createdAt t) = true) (tasks a) →
  loadTasks (saveTasks a be) a' = Loaded (setTasks (λ _, tasks a) a')
  ∧ tasks (setTasks (λ _, tasks a) a') = tasks a
  ∧ decode_payload (JSON_stringify (tasks a)) = Some (tasks a).
Proof.
  intros (Hg & Hs & Hgf & Hsf) Hsafe.
  split; [|split; [done|by apply decode_payload_stringify]].
  apply (loadTasks_decode _ _ (JSON_stringify (tasks a))).
  - unfold saveTasks, safeSetItem, safeGetItem. rewrite Hs, Hsf. cbn.
    rewrite Hg, Hgf. apply lookup_insert_eq.
  - by apply decode_payload_stringify.
Qed.

Lemma save_then_load_round_trip_witness :
  let t1 := mkTask (str "1700000000000") (str "write report") (str "High") false 1700000000000 in
  let t2 := mkTask (str "1700000000001") [34%N; 92%N; 10%N; 55357%N] (str "Low") true 1700000000001 in
  loadTasks (saveTasks (setTasks (λ _, [t1; t2]) initial_app) healthy_empty) initial_app
  = Loaded (setTasks (λ _, [t1; t2]) initial_app)
  ∧ loadTasks (saveTasks initial_app healthy_empty) initial_app = Loaded initial_app.
Proof.
  intros t1 t2. split.
  - apply (save_then_load_round_trip healthy_empty
            (setTasks (λ _, [t1; t2]) initial_app) initial_app).
    + by repeat split.
    + repeat constructor.
  - apply (save_then_load_round_trip healthy_empty initial_app initial_app).
    + by repeat split.
    + constructor.
Defined.

Lemma on_app_same (m : Machine) : on_app (λ _, app m) m = m.
Proof. by destruct m. Qed.

Lemma loadTasks_keeps (be : AsyncStorageT) (a : App) :
  has_getItem be = false ∨ getItem_fails be = true
  ∨ items be !! STORAGE_KEY = None
  ∨ (∃ raw, items be !! STORAGE_KEY = Some raw
       ∧ (raw = [] ∨ JSON_parse raw = None
          ∨ ∃ v, JSON_parse raw = Some v ∧ Array_isArray v = false)) →
  loadTasks be a = Loaded a.
Proof.
  unfold loadTasks, safeGetItem.
  intros [->|[H|[H|(raw & Hraw & H)]]]; [done|..].
  - rewrite H. by destruct (has_getItem be).
  - rewrite H. by destruct (has_getItem be), (getItem_fails be).
  - rewrite Hraw. destruct (has_getItem be), (getItem_fails be); try done.
    destruct H as [->|[H|(v & Hv & Harr)]]; [done|..].
    + rewrite H. by destruct (truthy_str raw).
    + rewrite Hv. destruct (truthy_str raw); [|done]. by destruct v.
Qed.

(** C6.  When the storage module lacks [getItem], or the call fails, or the
    key is absent, or the stored text is empty, is not JSON, or parses to
    something that is not an array, [loadTasks] leaves the component state
    as it is and raises nothing; run at start-up, it leaves the task list
    empty. *)
Theorem load_fails_soft (be : AsyncStorageT) (m : Machine) :
  has_getItem be = false ∨ getItem_fails be = true
  ∨ items be !! STORAGE_KEY = None
  ∨ (∃ raw, items be !! STORAGE_KEY = Some raw
       ∧ (raw = [] ∨ JSON_parse raw = None
          ∨ ∃ v, JSON_parse raw = Some v ∧ Array_isArray v = false)) →
  loadTasks be (app m) = Loaded (app m)
  ∧ step EvLoad (mkWorld m be) = Some (mkWorld m be)
  ∧ store <$> step EvLoad (initial_world be) = Some [].
Proof.
  intros H. pose proof (loadTasks_keeps be (app m) H) as Hm.
  pose proof (loadTasks_keeps be initial_app H) as Hi.
  split; [exact Hm|]. split.
  - cbn. rewrite Hm. by rewrite on_app_same.
  - cbn. change (app initial_machine) with initial_app. by rewrite Hi.
Qed.

Lemma load_fails_soft_witness :
  let holding raw := mkStorage true true false false {[ STORAGE_KEY := raw ]} in
  store <$> step EvLoad (initial_world (holding (str "{oops"))) = Some []
  ∧ store <$> step EvLoad (initial_world (holding (str "{}"))) = Some []
  ∧ store <$> step EvLoad (initial_world (holding (str "42"))) = Some []
  ∧ store <$> step EvLoad (initial_world healthy_empty) = Some []
  ∧ store <$> step EvLoad (initial_world (mkStorage true true true false ∅)) = Some [].
Proof.
  intros holding.
  split; [|split; [|split; [|split]]].
  - apply (load_fails_soft (holding (str "{oops")) initial_machine).
    do 3 right. exists (str "{oops"). split; [reflexivity|]. right. left.
    vm_compute. reflexivity.
  - apply (load_fails_soft (holding (str "{}")) initial_machine).
    do 3 right. exists (str "{}"). split; [reflexivity|]. right. right.
    exists (JObj []). split; vm_compute; reflexivity.
  - apply (load_fails_soft (holding (str "42")) initial_machine).
    do 3 right. exists (str "42"). split; [reflexivity|]. right. right.
    exists (JNum (str "42")). split; vm_compute; reflexivity.
  - apply (load_fails_soft healthy_empty initial_machine).
    right. right. left. reflexivity.
  - apply (load_fails_soft (mkStorage true true true false ∅) initial_machine).
    right. left. reflexivity.
Defined.


(** ** How one event changes the list and the stored payload *)

Lemma payload_safeSetItem (be : AsyncStorageT) (v : jsstring) :
  items (safeSetItem be STORAGE_KEY v) !! STORAGE_KEY = items be !! STORAGE_KEY
  ∨ items (safeSetItem be STORAGE_KEY v) !! STORAGE_KEY = Some v.
Proof.
  unfold safeSetItem. destruct (has_setItem be), (setItem_fails be); auto.
  right. apply lookup_insert_eq.
Qed.

Lemma loadTasks_cases (be : AsyncStorageT) (a a' : App) :
  loadTasks be a = Loaded a' →
  a' = a ∨ ∃ raw ts, items be !! STORAGE_KEY = Some raw
                     ∧ decode_payload raw = Some ts ∧ a' = setTasks (λ _, ts) a.
Proof.
  unfold loadTasks, safeGetItem, decode_payload. intros H.
  destruct (has_getItem be); [|injection H as <-; by left].
  destruct (getItem_fails be); [injection H as <-; by left|].
  destruct (items be !! STORAGE_KEY) as [raw|] eqn:E; [|injection H as <-; by left].
  destruct (truthy_str raw) eqn:Et; [|injection H as <-; by left].
  destruct (JSON_parse raw) as [v|] eqn:Ep; [|injection H as <-; by left].
  destruct v; try (injection H as <-; by left).
  destruct (tasks_of_json elements) as [ts|] eqn:Ets; [|done].
  injection H as <-. right. exists raw, ts. by rewrite Et, Ep.
Qed.

Lemma addTask_accepts_form (n1 n2 : Z) (a : App) :
  trim (form_name a) ≠ [] →
  form_priority (addTask n1 n2 a) = str "Medium".
Proof.
  intros H. unfold addTask.
  destruct (form_name a) as [|c r] eqn:E; [done|].
  destruct (trim (c :: r)) eqn:E'; [done|]. reflexivity.
Qed.

Lemma toggleDone_tasks (i : jsstring) (a : App) :
  tasks (toggleDone i a) = map (toggle i) (tasks a)
  ∧ form_priority (toggleDone i a) = form_priority a.
Proof.
  unfold toggleDone. destruct (selectedTask a) as [s|]; [|done].
  by destruct (str_eqb (id s) i).
Qed.

Lemma rollDice_app (m : Machine) :
  tasks (app (rollDice m)) = tasks (app m)
  ∧ form_priority (app (rollDice m)) = form_priority (app m).
Proof.
  unfold rollDice. cbn [tasks setSelectedTask].
  by destruct (incomplete (tasks (app m))).
Qed.

Lemma preview_tick_app (i r : nat) (m : Machine) :
  tasks (app (preview_tick i r m)) = tasks (app m)
  ∧ form_priority (app (preview_tick i r m)) = form_priority (app m).
Proof.
  unfold preview_tick. by destruct (pending (timers m) !! i) as [[[] ? ?]|].
Qed.

Lemma settle_app (i draw : nat) (m : Machine) :
  tasks (app (settle i draw m)) = tasks (app m)
  ∧ form_priority (app (settle i draw m)) = form_priority (app m).
Proof.
  unfold settle. by destruct (pending (timers m) !! i) as [[[] ? ?]|].
Qed.

Local Ltac world_simpl :=
  unfold store, payload, form_priority_of;
  cbn [machine backend app on_app].

Lemma step_store (e : Event) (w w' : World) :
  step e w = Some w' →
  store_change e w w'
  ∧ (payload w' = payload w
     ∨ (e = EvSave ∧ payload w' = Some (JSON_stringify (store w))))
  ∧ (form_priority_of w' = form_priority_of w
     ∨ is_enumerated (form_priority_of w')).
Proof.
  destruct w as [m be].
  destruct e; cbn [step machine backend];
    try (intros [= <-]).
  - split; [by apply change_none|]. world_simpl. auto.
  - split; [by apply change_none|]. world_simpl. split; [auto|].
    right. destruct p; unfold is_enumerated; cbn; auto.
  - split; [by apply change_none|]. world_simpl. auto.
  - split; [by apply change_none|]. world_simpl. split; [auto|].
    right. unfold is_enumerated. cbn. auto.
  - destruct (decide (trim (form_name (app m)) = [])) as [E|E].
    + split; [apply change_none|]; world_simpl;
        rewrite (addTask_rejects _ _ _ E); [done|auto].
    + split; [eapply change_add; [reflexivity|]|]; world_simpl.
      * by apply addTask_accepts.
      * rewrite (addTask_accepts_form _ _ _ E). split; [auto|].
        right. unfold is_enumerated. auto.
  - destruct (toggleDone_tasks i (app m)) as [E1 E2].
    split; [by apply (change_toggle _ _ _ i)|]. world_simpl. auto.
  - split; [|world_simpl; destruct confirmed; auto].
    destruct confirmed; [by eapply change_delete|by apply change_none].
  - destruct (rollDice_app m) as [E1 E2].
    split; [by apply change_none|]. world_simpl. auto.
  - destruct (preview_tick_app i r m) as [E1 E2].
    split; [by apply change_none|]. world_simpl. auto.
  - destruct (settle_app i draw m) as [E1 E2].
    split; [by apply change_none|]. world_simpl. auto.
  - split; [by apply change_none|]. world_simpl. split; [|auto].
    unfold saveTasks.
    destruct (payload_safeSetItem be (JSON_stringify (tasks (app m)))); auto.
  - destruct (loadTasks be (app m)) as [a|] eqn:E; [|done].
    intros [= <-].
    destruct (loadTasks_cases _ _ _ E) as [->|(raw & ts & Hraw & Hd & ->)].
    + split; [by apply change_none|]. world_simpl. auto.
    + split; [by eapply change_load|]. world_simpl. auto.
  - split; [by apply change_none|]. world_simpl. auto.
Qed.


(** ** Runs that stay within the development *)

Lemma task_of_json_safe (v : json) (t : Task) :
  task_of_json v = Some t → safe_integer (createdAt t) = true.
Proof.
  unfold task_of_json. intros H.
  repeat case_match; simplify_eq. done.
Qed.

Lemma tasks_of_json_safe (vs : list json) (ts : list Task) :
  tasks_of_json vs = Some ts → safe_tasks ts.
Proof.
  intros H%mapM_Some. induction H as [|v t vs ts Hv _ IH]; constructor; [|done].
  by apply (task_of_json_safe v).
Qed.

Lemma decode_payload_safe (raw : jsstring) (ts : list Task) :
  decode_payload raw = Some ts → safe_tasks ts.
Proof.
  unfold decode_payload. intros H. repeat case_match; simplify_eq.
  by apply (tasks_of_json_safe elements).
Qed.

Lemma loadTasks_in_model (be : AsyncStorageT) (a : App) :
  in_model (items be !! STORAGE_KEY) → ∃ a', loadTasks be a = Loaded a'.
Proof.
  intros Hm. unfold loadTasks, safeGetItem.
  destruct (has_getItem be); [|by eexists].
  destruct (getItem_fails be); [by eexists|].
  destruct (items be !! STORAGE_KEY) as [raw|] eqn:E; [|by eexists].
  destruct (truthy_str raw) eqn:Et; [|by eexists].
  destruct (JSON_parse raw) as [v|] eqn:Ep; [|by eexists].
  destruct v; try by eexists.
  destruct (Hm raw elements eq_refl Et Ep) as [ts ->]. by eexists.
Qed.

Lemma in_model_stringify (ts : list Task) :
  safe_tasks ts → in_model (Some (JSON_stringify ts)).
Proof.
  intros Hs raw vs [= <-] _. rewrite JSON_parse_stringify. intros [= <-].
  rewrite (tasks_of_json_of_tasks ts Hs). by eexists.
Qed.

Lemma safe_tasks_toggle (i : jsstring) (ts : list Task) :
  safe_tasks ts → safe_tasks (map (toggle i) ts).
Proof.
  unfold safe_tasks. induction 1 as [|t ts Ht _ IH]; constructor; [|done].
  unfold toggle. by destruct (str_eqb (id t) i).
Qed.

Lemma safe_tasks_filter (P : Task → Prop) `{!∀ t, Decision (P t)} (ts : list Task) :
  safe_tasks ts → safe_tasks (filter P ts).
Proof.
  unfold safe_tasks. rewrite !Forall_forall.
  intros Hall t [_ Ht]%list_elem_of_filter. by apply Hall.
Qed.

(** A run started with a payload the development describes, and fed clock
    readings that are safe integers, never leaves the development. *)
Lemma run_defined (es : list Event) (w0 : World) :
  safe_tasks (store w0) → in_model (payload w0) → Forall clock_ok es →
  ∃ w, run es w0 = Some w.
Proof.
  revert w0. induction es as [|e es IH]; intros w0 Hs Hm Hes; cbn [run].
  { by eexists. }
  apply Forall_cons in Hes as [He Hes].
  assert (∃ w1, step e w0 = Some w1) as [w1 E].
  { destruct e; try by eexists. cbn [step].
    destruct (loadTasks_in_model (backend w0) (app (machine w0)) Hm) as [a ->].
    by eexists. }
  rewrite E. destruct (step_store _ _ _ E) as (Hc & Hpay & _).
  apply IH; [| |done].
  - destruct Hc as [->| n1 n2 -> -> | i -> | i -> | raw Hraw Hd]; [done|..].
    + by constructor.
    + by apply safe_tasks_toggle.
    + by apply safe_tasks_filter.
    + by apply (decode_payload_safe raw).
  - destruct Hpay as [->|[_ ->]]; [done|]. by apply in_model_stringify.
Qed.

Lemma run_defined_initial (be : AsyncStorageT) (es : list Event) :
  in_model (items be !! STORAGE_KEY) → Forall clock_ok es →
  ∃ w, run es (initial_world be) = Some w.
Proof. intros. apply run_defined; [constructor|done..]. Qed.


(** ** Priorities *)

Lemma toggle_priority (i : jsstring) (t : Task) :
  priority (toggle i t) = priority t ∧ id (toggle i t) = id t.
Proof. unfold toggle. by destruct (str_eqb (id t) i). Qed.

Lemma enumerated_toggle (i : jsstring) (ts : list Task) :
  enumerated_tasks ts → enumerated_tasks (map (toggle i) ts).
Proof.
  unfold enumerated_tasks. induction 1 as [|t ts Ht _ IH]; constructor; [|done].
  by rewrite (proj1 (toggle_priority i t)).
Qed.

Lemma enumerated_filter (P : Task → Prop) `{!∀ t, Decision (P t)} (ts : list Task) :
  enumerated_tasks ts → enumerated_tasks (filter P ts).
Proof.
  unfold enumerated_tasks. rewrite !Forall_forall.
  intros Hall t [_ Ht]%list_elem_of_filter. by apply Hall.
Qed.

Lemma written_decodes (p0 p : option jsstring) :
  decodes_enumerated p0 → written_by_app p0 p → decodes_enumerated p.
Proof.
  intros H0 [->|(ts & -> & Hts)]; [done|].
  intros raw ts' [= <-] Hd.
  by rewrite (decode_payload_stringify_inv _ _ Hd).
Qed.

Lemma run_enumerated (p0 : option jsstring) (es : list Event) (w0 w : World) :
  decodes_enumerated p0 →
  enumerated_tasks (store w0) → is_enumerated (form_priority_of w0) →
  written_by_app p0 (payload w0) →
  run es w0 = Some w →
  enumerated_tasks (store w) ∧ written_by_app p0 (payload w).
Proof.
  intros Hp0. revert w0.
  induction es as [|e es IH]; intros w0 Hs Hf Hw; cbn [run].
  { by intros [= <-]. }
  destruct (step e w0) as [w1|] eqn:E; [|done].
  destruct (step_store _ _ _ E) as (Hc & Hpay & Hform).
  apply IH.
  - destruct Hc as [->| n1 n2 _ -> | i -> | i -> | raw Hraw Hd]; [done|..].
    + by constructor.
    + by apply enumerated_toggle.
    + by apply enumerated_filter.
    + by apply (written_decodes p0 _ Hp0 Hw raw).
  - destruct Hform as [->|]; done.
  - destruct Hpay as [->|[_ ->]]; [done|]. right. by exists (store w0).
Qed.

(** C8, as amended.  [loadTasks] stores what it parses without looking at
    the priorities.  Provided the payload found at start-up, when it is a
    list of task records, holds only the priorities "High", "Medium" and
    "Low" (as with an empty storage, or with anything the application
    wrote), then after any sequence of events every task of the store has
    one of these three priorities, and the stored payload is either the one
    found at start-up or the serialisation of a list of such tasks.  Such
    a run is defined whenever the start-up payload is not an array of
    something else than task records and the creation times are safe
    integers. *)
Theorem priorities_stay_enumerated (be : AsyncStorageT) (es : list Event) :
  (∀ raw ts, items be !! STORAGE_KEY = Some raw →
             decode_payload raw = Some ts → enumerated_tasks ts) →
  (∀ w, run es (initial_world be) = Some w →
     enumerated_tasks (store w)
     ∧ (payload w = items be !! STORAGE_KEY
        ∨ ∃ ts, payload w = Some (JSON_stringify ts) ∧ enumerated_tasks ts))
  ∧ (in_model (items be !! STORAGE_KEY) → Forall clock_ok es →
     ∃ w, run es (initial_world be) = Some w).
Proof.
  intros H0. split; [|apply run_defined_initial].
  intros w Hrun.
  apply (run_enumerated (items be !! STORAGE_KEY) es (initial_world be) w);
    try done.
  - constructor.
  - right. by left.
  - by left.
Qed.

Lemma priorities_stay_enumerated_witness :
  let es := [EvLoad; EvChangeText (str "buy milk"); EvPressPriority High;
             EvAddTask 1700000000000 1700000000000; EvSave;
             EvToggleDone (str "1700000000000"); EvSave; EvLoad] in
  ∃ w, run es (initial_world healthy_empty) = Some w
       ∧ enumerated_tasks (store w) ∧ length (store w) = 1.
Proof.
  intros es.
  destruct (priorities_stay_enumerated healthy_empty es) as [Hinv Hdef].
  { intros raw ts Hraw. vm_compute in Hraw. discriminate. }
  destruct Hdef as [w E].
  { intros raw vs Hraw. vm_compute in Hraw. discriminate. }
  { repeat constructor. }
  exists w. split; [done|]. split; [by apply Hinv|].
  vm_compute in E. injection E as <-. reflexivity.
Defined.

Lemma unvalidated_load_counterexample :
  let t := mkTask (str "1") (str "x") (str "Urgent") false 1 in
  let be := mkStorage true true false false {[ STORAGE_KEY := JSON_stringify [t] ]} in
  store <$> run [EvLoad] (initial_world be) = Some [t]
  ∧ payload <$> run [EvLoad; EvToggleDone (str "1"); EvSave] (initial_world be)
    = Some (Some (JSON_stringify [mkTask (str "1") (str "x") (str "Urgent") true 1]))
  ∧ ¬ is_enumerated (priority t)
  ∧ ¬ (∀ w, run [EvLoad] (initial_world be) = Some w → enumerated_tasks (store w)).
Proof.
  intros t be.
  assert (H1 : store <$> run [EvLoad] (initial_world be) = Some [t])
    by (vm_compute; reflexivity).
  assert (H2 : ¬ is_enumerated (priority t)).
  { intros [H|[H|H]]; vm_compute in H; discriminate. }
  split; [exact H1|]. split; [vm_compute; reflexivity|]. split; [exact H2|].
  intros H. destruct (run [EvLoad] (initial_world be)) as [w|] eqn:E; [|done].
  specialize (H w eq_refl). injection H1 as H1. rewrite H1 in H.
  apply Forall_cons in H as [H _]. done.
Qed.


(** ** Ids *)

Lemma ids_fresh_weaken (ns ns' : list Z) (ts : list Task) :
  ns ⊆ ns' → ids_fresh_for ns' ts → ids_fresh_for ns ts.
Proof. intros Hsub [Hnd Hf]. split; [done|]. intros t n Ht Hn. apply Hf; auto. Qed.

Lemma map_id_toggle (i : jsstring) (ts : list Task) :
  map id (map (toggle i) ts) = map id ts.
Proof.
  induction ts as [|t ts IH]; [done|]. cbn.
  by rewrite IH, (proj2 (toggle_priority i t)).
Qed.

Lemma ids_fresh_toggle (ns : list Z) (i : jsstring) (ts : list Task) :
  ids_fresh_for ns ts → ids_fresh_for ns (map (toggle i) ts).
Proof.
  intros [Hnd Hf]. split; [by rewrite map_id_toggle|].
  intros t n Ht Hn. apply list_elem_of_fmap in Ht as (u & -> & Hu).
  rewrite (proj2 (toggle_priority i u)). by apply Hf.
Qed.

Lemma NoDup_map_filter (P : Task → Prop) `{!∀ t, Decision (P t)} (ts : list Task) :
  NoDup (map id ts) → NoDup (map id (filter P ts)).
Proof.
  induction ts as [|t ts IH]; [done|]. cbn [map].
  intros [Hnot Hnd]%NoDup_cons. rewrite filter_cons.
  destruct (decide (P t)); [|by apply IH].
  cbn [map]. apply NoDup_cons. split; [|by apply IH].
  intros Hin. apply Hnot.
  apply list_elem_of_fmap in Hin as (u & Hid & [_ Hu]%list_elem_of_filter).
  rewrite Hid. by apply (list_elem_of_fmap_2 id).
Qed.

Lemma ids_fresh_filter (ns : list Z) (P : Task → Prop) `{!∀ t, Decision (P t)}
    (ts : list Task) :
  ids_fresh_for ns ts → ids_fresh_for ns (filter P ts).
Proof.
  intros [Hnd Hf]. split; [by apply NoDup_map_filter|].
  intros t n [_ Ht]%list_elem_of_filter Hn. by apply Hf.
Qed.

Lemma ids_fresh_add (ns : list Z) (n : Z) (t : Task) (ts : list Task) :
  id t = Number_toString n → n ∉ ns →
  ids_fresh_for (n :: ns) ts → ids_fresh_for ns (t :: ts).
Proof.
  intros Hid Hn [Hnd Hf]. split.
  - cbn [map]. apply NoDup_cons. split; [|done].
    intros Hin. apply list_elem_of_fmap in Hin as (u & Hu & Hin).
    apply (Hf u n Hin); [left|]. by rewrite <- Hu.
  - intros u m [->|Hu]%elem_of_cons Hm.
    + rewrite Hid. intros Heq%Number_toString_inj. by subst.
    + apply Hf; [done|by right].
Qed.

Lemma add_accepted_trim (a : App) :
  add_accepted a = true ↔ trim (form_name a) ≠ [].
Proof.
  unfold add_accepted.
  destruct (form_name a) as [|c r] eqn:E; [by split|]. rewrite <- E.
  destruct (trim (form_name a)) eqn:E'; cbn.
  - rewrite E. cbn. by split.
  - rewrite E. cbn. by split.
Qed.

Lemma id_readings_step (e : Event) (es : list Event) (w w' : World) :
  step e w = Some w' →
  id_readings (e :: es) w = id_readings es w'
  ∨ ∃ n1 n2, e = EvAddTask n1 n2 ∧ add_accepted (app (machine w)) = true
             ∧ id_readings (e :: es) w = n1 :: id_readings es w'.
Proof.
  intros E. cbn [id_readings]. rewrite E.
  destruct e; try by left.
  destruct (add_accepted (app (machine w))) eqn:Ea; [|by left].
  right. by eexists _, _.
Qed.

Lemma add_grows_accepted (n1 n2 : Z) (w w' : World) (t : Task) :
  step (EvAddTask n1 n2) w = Some w' →
  store w' = t :: store w →
  add_accepted (app (machine w)) = true.
Proof.
  intros [= <-]. unfold store. cbn [machine app on_app].
  destruct (add_accepted (app (machine w))) eqn:Ea; [done|].
  assert (trim (form_name (app (machine w))) = []) as Ht.
  { destruct (trim (form_name (app (machine w)))) eqn:E'; [done|].
    exfalso. assert (add_accepted (app (machine w)) = true); [|congruence].
    apply add_accepted_trim. by rewrite E'. }
  rewrite (addTask_rejects _ _ _ Ht). cbn. intros H.
  apply (f_equal length) in H. cbn in H. lia.
Qed.

Lemma run_ids_fresh (es : list Event) (w0 w : World) :
  NoDup (id_readings es w0) →
  ids_fresh_for (id_readings es w0) (store w0) →
  payload_fresh_for (id_readings es w0) (payload w0) →
  run es w0 = Some w →
  NoDup (map id (store w)).
Proof.
  revert w0. induction es as [|e es IH]; intros w0 Hnd Hs Hp; cbn [run].
  { intros [= <-]. apply Hs. }
  destruct (step e w0) as [w1|] eqn:E; [|done].
  destruct (step_store _ _ _ E) as (Hc & Hpay & _).
  assert (Hsub : id_readings es w1 ⊆ id_readings (e :: es) w0).
  { destruct (id_readings_step e es _ _ E) as [->|(? & ? & _ & _ & ->)];
      [done|]. intros r Hr. by right. }
  assert (Hnd1 : NoDup (id_readings es w1)).
  { destruct (id_readings_step e es _ _ E) as [Heq|(? & ? & _ & _ & Heq)];
      rewrite Heq in Hnd; [done|]. by apply NoDup_cons in Hnd as [_ ?]. }
  apply IH; [done|..].
  - destruct Hc as [->| n1 n2 -> Hst | i -> | i -> | raw Hraw Hd].
    + by apply (ids_fresh_weaken _ _ _ Hsub).
    + pose proof (add_grows_accepted _ _ _ _ _ E Hst) as Hacc.
      destruct (id_readings_step _ es _ _ E) as [Heq|(m1 & m2 & [= <- <-] & _ & Heq)].
      { cbn [id_readings] in Heq. rewrite E, Hacc in Heq.
        apply (f_equal length) in Heq. cbn in Heq. lia. }
      rewrite Heq in Hnd, Hs. apply NoDup_cons in Hnd as [Hn1 _].
      rewrite Hst. by apply (ids_fresh_add _ n1).
    + by apply ids_fresh_toggle, (ids_fresh_weaken _ _ _ Hsub).
    + by apply ids_fresh_filter, (ids_fresh_weaken _ _ _ Hsub).
    + by apply (ids_fresh_weaken _ _ _ Hsub), (Hp raw).
  - destruct Hpay as [->|[_ ->]].
    + intros raw ts Hraw Hd. by apply (ids_fresh_weaken _ _ _ Hsub), (Hp raw).
    + intros raw ts [= <-] Hd. rewrite (decode_payload_stringify_inv _ _ Hd).
      by apply (ids_fresh_weaken _ _ _ Hsub).
Qed.

(** C2, as amended.  The id of a task is the clock reading at the time of
    the add, printed in decimal.  In every run in which the accepted adds
    read pairwise distinct clock values (and the list found in storage at
    start-up, if any, has distinct ids that none of these readings prints),
    the tasks of the store have pairwise distinct ids at the end of the
    run, whatever toggles, deletions, saves and loads it contains.  Such a
    run is defined whenever the start-up payload is not an array of
    something else than task records and the creation times are safe
    integers. *)
Theorem ids_distinct_for_distinct_readings (be : AsyncStorageT) (es : list Event) :
  NoDup (id_readings es (initial_world be)) →
  (∀ raw ts, items be !! STORAGE_KEY = Some raw → decode_payload raw = Some ts →
             ids_fresh_for (id_readings es (initial_world be)) ts) →
  (∀ w, run es (initial_world be) = Some w → NoDup (map id (store w)))
  ∧ (in_model (items be !! STORAGE_KEY) → Forall clock_ok es →
     ∃ w, run es (initial_world be) = Some w).
Proof.
  intros Hnd Hp. split; [|apply run_defined_initial].
  intros w Hrun.
  apply (run_ids_fresh es (initial_world be) w); try done.
  split; [constructor|]. by intros t n ?%not_elem_of_nil.
Qed.

Lemma ids_distinct_for_distinct_readings_witness :
  let es := [EvChangeText (str "a"); EvAddTask 1700000000000 1700000000000;
             EvSave; EvChangeText (str "b"); EvPressPriority Low;
             EvAddTask 1700000000001 1700000000002;
             EvDeleteTask (str "1700000000000") true; EvLoad;
             EvAddTask 1700000000000 1700000000000;
             EvChangeText (str "c"); EvAddTask 1700000000003 1700000000003] in
  ∃ w, run es (initial_world healthy_empty) = Some w
       ∧ length (store w) = 2 ∧ NoDup (map id (store w)).
Proof.
  intros es.
  destruct (ids_distinct_for_distinct_readings healthy_empty es) as [Hinv Hdef].
  { apply (bool_decide_unpack _). vm_compute. exact I. }
  { intros raw ts Hraw. vm_compute in Hraw. discriminate. }
  destruct Hdef as [w E].
  { intros raw vs Hraw. vm_compute in Hraw. discriminate. }
  { repeat constructor. }
  exists w. split; [done|]. split; [|by apply Hinv].
  vm_compute in E. injection E as <-. reflexivity.
Defined.

Lemma same_reading_counterexample :
  let es := [EvChangeText (str "a"); EvAddTask 5 5;
             EvChangeText (str "b"); EvAddTask 5 6] in
  map id <$> (store <$> run es (initial_world healthy_empty))
  = Some [str "5"; str "5"]
  ∧ ¬ (∀ w, run es (initial_world healthy_empty) = Some w →
            NoDup (map id (store w))).
Proof.
  intros es.
  assert (H1 : map id <$> (store <$> run es (initial_world healthy_empty))
               = Some [str "5"; str "5"]) by (vm_compute; reflexivity).
  split; [exact H1|]. intros H.
  destruct (run es (initial_world healthy_empty)) as [w|] eqn:E; [|done].
  specialize (H w eq_refl). injection H1 as H1. rewrite H1 in H.
  apply NoDup_cons in H as [H _]. apply H. left.
Qed.


(** ** Timers of the roll *)

Lemma timers_inv_same (m m' : Machine) :
  same_timing m m' → timers_inv m → timers_inv m'.
Proof.
  intros (Ht & Hr & Hs & Hp & Hi & Ho). unfold timers_inv.
  by rewrite Ht, Hr, Hs, Hp, Hi, Ho.
Qed.

Lemma lookup_clear_ref (r : option nat) (ts : Timers) (i : nat) :
  pending (clear_ref r ts) !! i
  = if decide (r = Some i) then None else pending ts !! i.
Proof.
  destruct r as [j|]; cbn.
  - case_decide as E.
    + injection E as ->. apply lookup_delete_eq.
    + apply lookup_delete_ne. congruence.
  - by rewrite decide_False.
Qed.

Lemma lookup_clear (i j : nat) (ts : Timers) :
  pending (clear i ts) !! j = if decide (i = j) then None else pending ts !! j.
Proof.
  cbn. case_decide as E; [subst; apply lookup_delete_eq|by apply lookup_delete_ne].
Qed.

Lemma next_id_clear_ref (r : option nat) (ts : Timers) :
  next_id (clear_ref r ts) = next_id ts.
Proof. by destruct r. Qed.

Lemma cleared_empty (m : Machine) :
  timers_inv m →
  pending (clear_ref (timeoutRef (app m))
             (clear_ref (intervalRef (app m)) (timers m))) = ∅.
Proof.
  intros (H1 & _). apply map_eq. intros i.
  rewrite lookup_empty, !lookup_clear_ref.
  repeat case_decide; try done.
  destruct (pending (timers m) !! i) as [t|] eqn:E; [|done].
  destruct (H1 i t E) as (_ & _ & [[_ ?]|[_ ?]]); done.
Qed.

Lemma timers_inv_rollDice (m : Machine) : timers_inv m → timers_inv (rollDice m).
Proof.
  intros Hinv.
  destruct (decide (incomplete (tasks (app m)) = [])) as [He|Hne].
  { apply (timers_inv_same m); [|done]. rewrite (rollDice_empty m He).
    by repeat split. }
  pose proof (cleared_empty m Hinv) as Hempty.
  destruct (rollDice_schedules m Hne) as (Ha & Hp & Hn & Hr & Hs & Hsup).
  rewrite Hempty in Hp. rewrite !next_id_clear_ref in Ha, Hp, Hn.
  destruct Hinv as (H1 & H2 & H3 & H4 & H5 & H6).
  assert (Hold : ∀ o, o ∈ pending_owner (timeoutRef (app m))
                          (clear_ref (intervalRef (app m)) (timers m)) →
                      o = rolls m ∧ rolls m ∉ settled m ++ superseded m).
  { intros o. unfold pending_owner.
    destruct (timeoutRef (app m)) as [j|] eqn:Ej; [|by intros ?%not_elem_of_nil].
    rewrite lookup_clear_ref. case_decide as Ei; [by intros ?%not_elem_of_nil|].
    destruct (pending (timers m) !! j) as [t|] eqn:Et; [|by intros ?%not_elem_of_nil].
    intros ->%list_elem_of_singleton.
    destruct (H1 j t Et) as (_ & Ho & [[_ Hk]|[Hk _]]). { by destruct Ei. }
    split; [done|]. apply H3. by exists j, t. }
  unfold timers_inv. rewrite Ha, Hp, Hn, Hr, Hs, Hsup. cbn.
  split; [|split; [|split; [|split; [|split]]]].
  - intros i t Hi.
    apply lookup_insert_Some in Hi as [[<- <-]|[Hne1 Hi]].
    { split; [lia|]. split; [done|]. right. by split. }
    apply lookup_insert_Some in Hi as [[<- <-]|[_ Hi]].
    { split; [lia|]. split; [done|]. left. by split. }
    by rewrite lookup_empty in Hi.
  - intros o [Ho|[Ho|Ho]%elem_of_app]%elem_of_app.
    + specialize (H2 o). rewrite elem_of_app in H2. specialize (H2 (or_introl Ho)). lia.
    + destruct (Hold o Ho) as [-> _]. lia.
    + specialize (H2 o). rewrite elem_of_app in H2. specialize (H2 (or_intror Ho)). lia.
  - intros _ [Ho|[Ho|Ho]%elem_of_app]%elem_of_app.
    + specialize (H2 (S (rolls m))). rewrite elem_of_app in H2.
      specialize (H2 (or_introl Ho)). lia.
    + destruct (Hold _ Ho) as [E _]. lia.
    + specialize (H2 (S (rolls m))). rewrite elem_of_app in H2.
      specialize (H2 (or_intror Ho)). lia.
  - done.
  - intros o [Ho|Ho]%elem_of_app; [|by apply H5].
    destruct (Hold o Ho) as [-> Hn']. intros Hin. apply Hn'.
    apply elem_of_app. by left.
  - intros i [= <-] [= Heq]. lia.
Qed.

Lemma timers_inv_preview_tick (i r : nat) (m : Machine) :
  timers_inv m → timers_inv (preview_tick i r m).
Proof.
  apply timers_inv_same. unfold preview_tick.
  by destruct (pending (timers m) !! i) as [[[] ? ?]|].
Qed.

Lemma timers_inv_settle (i draw : nat) (m : Machine) :
  timers_inv m → timers_inv (settle i draw m).
Proof.
  intros Hinv. unfold settle.
  destruct (pending (timers m) !! i) as [[[] avail o]|] eqn:E; try done.
  destruct Hinv as (H1 & H2 & H3 & H4 & H5 & H6).
  destruct (H1 i _ E) as (Hlt & Ho & [[Hk _]|[_ Href]]); [done|].
  cbn in Ho. subst o.
  assert (Hfresh : rolls m ∉ settled m ++ superseded m).
  { apply H3. eexists i, _. split; [exact E|done]. }
  unfold timers_inv. cbn.
  split; [|split; [|split; [|split; [|split]]]].
  - intros j t. rewrite lookup_clear_ref. case_decide; [done|].
    rewrite lookup_clear. case_decide; [done|]. intros Hj.
    destruct (H1 j t Hj) as (? & ? & Hcase). rewrite next_id_clear_ref. cbn.
    repeat split; done.
  - intros o' [->|Ho']%elem_of_cons; [lia|]. by apply H2.
  - intros (j & t & Hj & Hk).
    rewrite lookup_clear_ref in Hj. case_decide; [done|].
    rewrite lookup_clear in Hj. case_decide as Hij; [done|].
    exfalso.
    destruct (H1 j t Hj) as (_ & _ & [[Hk' _]|[_ Href']]); [congruence|].
    apply Hij. congruence.
  - apply NoDup_cons. split; [|done]. intros Hin. apply Hfresh.
    apply elem_of_app. by left.
  - intros o' Ho' [->|Hin]%elem_of_cons; [|by apply (H5 o')].
    apply Hfresh. apply elem_of_app. by right.
  - done.
Qed.

Lemma timers_inv_initial : timers_inv initial_machine.
Proof.
  unfold timers_inv. cbn. split; [|split; [|split; [|split; [|split]]]].
  - intros i t. by rewrite lookup_empty.
  - by intros o ?%not_elem_of_nil.
  - by intros _ ?%not_elem_of_nil.
  - constructor.
  - by intros o ?%not_elem_of_nil.
  - done.
Qed.

Lemma same_timing_on_app (f : App → App) (m : Machine) :
  intervalRef (f (app m)) = intervalRef (app m) →
  timeoutRef (f (app m)) = timeoutRef (app m) →
  same_timing m (on_app f m).
Proof. intros. by repeat split. Qed.

Lemma addTask_refs (n1 n2 : Z) (a : App) :
  intervalRef (addTask n1 n2 a) = intervalRef a
  ∧ timeoutRef (addTask n1 n2 a) = timeoutRef a.
Proof. unfold addTask. by case_match. Qed.

Lemma toggleDone_refs (i : jsstring) (a : App) :
  intervalRef (toggleDone i a) = intervalRef a
  ∧ timeoutRef (toggleDone i a) = timeoutRef a.
Proof. unfold toggleDone. by repeat case_match. Qed.

Lemma deleteTask_refs (i : jsstring) (c : bool) (a : App) :
  intervalRef (deleteTask i c a) = intervalRef a
  ∧ timeoutRef (deleteTask i c a) = timeoutRef a.
Proof. by destruct c. Qed.

Lemma step_timers_inv (e : Event) (w w' : World) :
  step e w = Some w' → timers_inv (machine w) → timers_inv (machine w').
Proof.
  destruct w as [m be].
  destruct e; cbn [step machine backend]; try (intros [= <-]; cbn [machine]).
  - by apply timers_inv_same, same_timing_on_app.
  - by apply timers_inv_same, same_timing_on_app.
  - by apply timers_inv_same, same_timing_on_app.
  - by apply timers_inv_same, same_timing_on_app.
  - apply timers_inv_same, same_timing_on_app; apply addTask_refs.
  - apply timers_inv_same, same_timing_on_app; apply toggleDone_refs.
  - apply timers_inv_same, same_timing_on_app; apply deleteTask_refs.
  - apply timers_inv_rollDice.
  - apply timers_inv_preview_tick.
  - apply timers_inv_settle.
  - done.
  - destruct (loadTasks be (app m)) as [a|] eqn:E; [|done].
    intros [= <-]. cbn [machine].
    destruct (loadTasks_cases _ _ _ E) as [->|(raw & ts & _ & _ & ->)];
      by apply timers_inv_same.
  - done.
Qed.

Lemma run_timers_inv (es : list Event) (w0 w : World) :
  timers_inv (machine w0) → run es w0 = Some w → timers_inv (machine w).
Proof.
  revert w0. induction es as [|e es IH]; intros w0 Hinv; cbn [run].
  { by intros [= <-]. }
  destruct (step e w0) as [w1|] eqn:E; [|done].
  apply IH. by apply (step_timers_inv e w0).
Qed.

(** X22.  In every reachable state all pending timers belong to one roll, the
    last one that scheduled timers; a roll whose settle timer was cleared
    by a later roll never writes its result, and no roll writes twice.
    A roll that finds incomplete tasks clears the timers of the two refs
    before it schedules its own: afterwards the queue holds exactly its
    interval and its timeout, every timer pending before is gone, and the
    roll that owned a pending settle timer is recorded as superseded.  (A
    roll that finds no incomplete task schedules nothing and touches no
    timer.)  Runs are defined whenever the start-up payload is not an array
    of something else than task records and the creation times are safe
    integers. *)
Theorem rolls_never_overlap (be : AsyncStorageT) (es : list Event) :
  (∀ w, run es (initial_world be) = Some w →
     let m := machine w in
     let avail := incomplete (tasks (app m)) in
     (∀ i j t u, pending (timers m) !! i = Some t →
                 pending (timers m) !! j = Some u → owner t = owner u)
     ∧ (∀ o, o ∈ superseded m → o ∉ settled m)
     ∧ NoDup (settled m)
     ∧ (avail ≠ [] →
        pending (timers (rollDice m))
        = <[S (next_id (timers m)) := mkTimer Timeout avail (S (rolls m))]>
            (<[next_id (timers m) := mkTimer Interval avail (S (rolls m))]> ∅)
        ∧ ∀ i t, pending (timers m) !! i = Some t →
            pending (timers (rollDice m)) !! i = None
            ∧ owner t ≠ S (rolls m)
            ∧ (kind t = Timeout → owner t ∈ superseded (rollDice m))))
  ∧ (in_model (items be !! STORAGE_KEY) → Forall clock_ok es →
     ∃ w, run es (initial_world be) = Some w).
Proof.
  split; [|apply run_defined_initial].
  intros w Hrun m avail.
  pose proof (run_timers_inv es (initial_world be) w timers_inv_initial Hrun) as Hinv.
  fold m in Hinv. pose proof Hinv as (H1 & H2 & H3 & H4 & H5 & H6).
  split; [|split; [done|split; [done|]]].
  - intros i j t u Hi Hj.
    destruct (H1 i t Hi) as (_ & -> & _). by destruct (H1 j u Hj) as (_ & -> & _).
  - intros Hne.
    destruct (rollDice_schedules m Hne) as (_ & Hp & _ & _ & _ & Hsup).
    rewrite (cleared_empty m Hinv), !next_id_clear_ref in Hp.
    split; [exact Hp|]. intros i t Hi.
    destruct (H1 i t Hi) as (Hlt & Ho & Hcase).
    split; [|split; [lia|]].
    + rewrite Hp, !lookup_insert_ne, lookup_empty by lia. done.
    + intros Hk. destruct Hcase as [[Hk' _]|[_ Href]]; [congruence|].
      rewrite Hsup, Href. apply elem_of_app. left. unfold pending_owner.
      rewrite lookup_clear_ref, decide_False, Hi; [by left|].
      intros Heq. by apply (H6 i).
Qed.

Lemma rolls_never_overlap_witness :
  let es := [EvChangeText (str "a"); EvAddTask 10 10; EvRollDice;
             EvInterval 1 0; EvRollDice; EvTimeout 2 0; EvTimeout 4 0] in
  ∃ w, run es (initial_world healthy_empty) = Some w
       ∧ settled (machine w) = [2] ∧ superseded (machine w) = [1]
       ∧ NoDup (settled (machine w)).
Proof.
  intros es.
  destruct (rolls_never_overlap healthy_empty es) as [Hinv Hdef].
  destruct Hdef as [w E].
  { intros raw vs Hraw. vm_compute in Hraw. discriminate. }
  { repeat constructor. }
  exists w. split; [done|].
  destruct (Hinv w E) as (_ & _ & Hnd & _).
  vm_compute in E. injection E as <-.
  split; [reflexivity|]. split; [reflexivity|]. exact Hnd.
Defined.


(** ** More on the store handlers *)

Lemma toggle_toggle (i : jsstring) (t : Task) : toggle i (toggle i t) = t.
Proof.
  unfold toggle. destruct (str_eqb (id t) i) eqn:E; cbn; [|by rewrite E].
  rewrite E. destruct t as [? ? ? d ?]. cbn. by destruct d.
Qed.

Lemma toggle_other (i : jsstring) (t : Task) : id t ≠ i → toggle i t = t.
Proof. intros H%str_eqb_neq. unfold toggle. by rewrite H. Qed.

Lemma toggle_comm (i j : jsstring) (t : Task) :
  toggle i (toggle j t) = toggle j (toggle i t).
Proof.
  unfold toggle.
  destruct (str_eqb (id t) i) eqn:Ei, (str_eqb (id t) j) eqn:Ej;
    cbn; rewrite ?Ei, ?Ej; done.
Qed.

Lemma selectedTask_toggleDone (i : jsstring) (a : App) :
  selectedTask (toggleDone i a)
  = match selectedTask a with
    | Some s => if str_eqb (id s) i then None else Some s
    | None => None
    end.
Proof.
  unfold toggleDone. destruct (selectedTask a) as [s|] eqn:E; [|done].
  by destruct (str_eqb (id s) i).
Qed.

(** X1.  Toggling the same task twice restores the task list, and the
    selection after the second toggle is the one the first toggle left (a
    selection cleared by the first toggle stays cleared). *)
Theorem toggleDone_twice (i : jsstring) (a : App) :
  tasks (toggleDone i (toggleDone i a)) = tasks a
  ∧ selectedTask (toggleDone i (toggleDone i a)) = selectedTask (toggleDone i a).
Proof.
  split.
  - rewrite !(proj1 (toggleDone_tasks _ _)).
    induction (tasks a) as [|t ts IH]; [done|]. cbn. by rewrite toggle_toggle, IH.
  - rewrite !selectedTask_toggleDone.
    destruct (selectedTask a) as [s|]; [|done].
    destruct (str_eqb (id s) i) eqn:Es; [done|]. by rewrite Es.
Qed.

(** X2.  Toggling an id that no task carries leaves the task list as it
    is; when the selected task does not carry the id either, the whole state
    is unchanged. *)
Theorem toggleDone_unknown_id (i : jsstring) (a : App) :
  Forall (λ t, id t ≠ i) (tasks a) →
  tasks (toggleDone i a) = tasks a
  ∧ ((∀ s, selectedTask a = Some s → id s ≠ i) → toggleDone i a = a).
Proof.
  intros H.
  assert (Hmap : map (toggle i) (tasks a) = tasks a).
  { induction H as [|t ts Ht _ IH]; [done|]. cbn. by rewrite toggle_other, IH. }
  split; [by rewrite (proj1 (toggleDone_tasks _ _))|].
  intros Hs. unfold toggleDone, setTasks. rewrite Hmap.
  destruct (selectedTask a) as [s|] eqn:E; [|destruct a; cbn in *; congruence].
  specialize (Hs s eq_refl). apply str_eqb_neq in Hs. rewrite Hs.
  destruct a; cbn in *; congruence.
Qed.

Lemma toggleDone_unknown_id_witness :
  let t := mkTask (str "1") (str "a") (str "High") false 1 in
  let a := setTasks (λ _, [t]) initial_app in
  toggleDone (str "2") a = a.
Proof.
  intros t a.
  destruct (toggleDone_unknown_id (str "2") a) as [_ H].
  - repeat constructor. vm_compute. discriminate.
  - apply H. intros s Hs. vm_compute in Hs. discriminate.
Defined.

(** X3.  After a toggle the selection never carries the toggled id: a
    selected task with that id is deselected, any other selection is kept.
    The toggle changes neither the number of tasks nor their ids nor their
    order. *)
Theorem toggleDone_clears_selection (i : jsstring) (a : App) :
  (∀ s, selectedTask (toggleDone i a) = Some s →
        id s ≠ i ∧ selectedTask a = Some s)
  ∧ (∀ s, selectedTask a = Some s → id s = i →
          selectedTask (toggleDone i a) = None)
  ∧ length (tasks (toggleDone i a)) = length (tasks a)
  ∧ map id (tasks (toggleDone i a)) = map id (tasks a).
Proof.
  rewrite selectedTask_toggleDone. split; [|split; [|split]].
  - intros s. destruct (selectedTask a) as [s'|]; [|done].
    destruct (str_eqb (id s') i) eqn:Es; [done|].
    intros [= ->]. split; [by apply str_eqb_neq|done].
  - intros s -> <-. by rewrite str_eqb_refl.
  - rewrite (proj1 (toggleDone_tasks _ _)). apply length_map.
  - rewrite (proj1 (toggleDone_tasks _ _)). apply map_id_toggle.
Qed.

Lemma addTask_accepted_state (n1 n2 : Z) (a : App) :
  trim (form_name a) ≠ [] →
  addTask n1 n2 a
  = mkApp (mkTask (Number_toString n1) (trim (form_name a)) (form_priority a)
                  false n2 :: tasks a)
          [] (str "Medium") false (selectedTask a) (tempSelected a) (rolling a)
          [] (intervalRef a) (timeoutRef a).
Proof.
  intros H. unfold addTask.
  destruct (form_name a) as [|c r] eqn:E; [done|].
  destruct (trim (c :: r)) eqn:E'; [done|]. reflexivity.
Qed.

(** X4.  An accepted add empties the name field, sets the form priority
    back to Medium, closes the modal, clears the error and makes the list one
    longer.  Whatever the first add did, a second add fired right after it
    never changes the list: the name field is blank by then. *)
Theorem addTask_resets_form (n1 n2 n3 n4 : Z) (a : App) :
  (trim (form_name a) ≠ [] →
     form_name (addTask n1 n2 a) = []
     ∧ form_priority (addTask n1 n2 a) = str "Medium"
     ∧ modalVisible (addTask n1 n2 a) = false
     ∧ error (addTask n1 n2 a) = []
     ∧ length (tasks (addTask n1 n2 a)) = S (length (tasks a)))
  ∧ tasks (addTask n3 n4 (addTask n1 n2 a)) = tasks (addTask n1 n2 a).
Proof.
  split.
  - intros H. by rewrite (addTask_accepted_state _ _ _ H).
  - destruct (decide (trim (form_name a) = [])) as [E|E].
    + rewrite (addTask_rejects n1 n2 a E).
      by rewrite (addTask_rejects n3 n4 (setError _ a) E).
    + rewrite (addTask_accepted_state _ _ _ E).
      by rewrite addTask_rejects.
Qed.

Lemma addTask_resets_form_witness :
  let a := setName (str " call mum ") initial_app in
  length (tasks (addTask 8 9 (addTask 5 6 a))) = 1.
Proof.
  intros a.
  destruct (addTask_resets_form 5 6 8 9 a) as [H1 H2].
  rewrite H2. destruct H1 as (_ & _ & _ & _ & Hlen); [vm_compute; discriminate|].
  exact Hlen.
Defined.

(** X5.  Deleting the task just added gives back the list from before the
    add, provided the name was accepted and no older task carries the new
    id. *)
Theorem add_then_delete (n1 n2 : Z) (a : App) :
  trim (form_name a) ≠ [] →
  Forall (λ t, id t ≠ Number_toString n1) (tasks a) →
  tasks (deleteTask (Number_toString n1) true (addTask n1 n2 a)) = tasks a.
Proof.
  intros H Hfresh. rewrite (addTask_accepted_state _ _ _ H).
  cbn [deleteTask setTasks tasks].
  rewrite filter_cons_False by (cbn; intros Hn; by apply Hn).
  by apply filter_all_keep.
Qed.

Lemma add_then_delete_witness :
  let t := mkTask (str "1") (str "a") (str "High") false 1 in
  let a := setName (str "b") (setTasks (λ _, [t]) initial_app) in
  tasks (deleteTask (str "2") true (addTask 2 2 a)) = [t].
Proof.
  intros t a. apply (add_then_delete 2 2 a).
  - vm_compute. discriminate.
  - repeat constructor. vm_compute. discriminate.
Defined.

Lemma filter_map_toggle (i j : jsstring) (ts : list Task) :
  filter (λ t, id t ≠ i) (map (toggle j) ts)
  = map (toggle j) (filter (λ t, id t ≠ i) ts).
Proof.
  induction ts as [|t ts IH]; [done|]. cbn [map].
  rewrite !filter_cons, (proj2 (toggle_priority j t)).
  destruct (decide (id t ≠ i)); cbn [map]; by rewrite IH.
Qed.

(** X6.  On the task list a confirmed delete and a toggle commute, two
    toggles commute, and two confirmed deletes commute. *)
Theorem toggles_and_deletes_commute (i j : jsstring) (a : App) :
  tasks (deleteTask i true (toggleDone j a)) = tasks (toggleDone j (deleteTask i true a))
  ∧ tasks (toggleDone i (toggleDone j a)) = tasks (toggleDone j (toggleDone i a))
  ∧ tasks (deleteTask i true (deleteTask j true a))
    = tasks (deleteTask j true (deleteTask i true a)).
Proof.
  split; [|split].
  - rewrite (proj1 (toggleDone_tasks _ _)). cbn [deleteTask setTasks tasks].
    rewrite (proj1 (toggleDone_tasks _ _)). apply filter_map_toggle.
  - rewrite !(proj1 (toggleDone_tasks _ _)).
    induction (tasks a) as [|t ts IH]; [done|]. cbn. by rewrite toggle_comm, IH.
  - cbn [deleteTask setTasks tasks]. rewrite !list_filter_filter.
    apply list_filter_iff. intros t. split; intros [? ?]; by split.
Qed.

(** X7.  A confirmed delete removes every task that carries the id, not
    only the first: none is left, the list shrinks by the number of
    occurrences, all other tasks stay, in their order, and deleting again
    changes nothing.  A delete that is not confirmed changes nothing. *)
Theorem deleteTask_removes_all (i : jsstring) (a : App) :
  Forall (λ t, id t ≠ i) (tasks (deleteTask i true a))
  ∧ length (tasks (deleteTask i true a))
    + length (filter (λ t, id t = i) (tasks a)) = length (tasks a)
  ∧ (∀ t, id t ≠ i → t ∈ tasks a → t ∈ tasks (deleteTask i true a))
  ∧ tasks (deleteTask i true a) `sublist_of` tasks a
  ∧ deleteTask i true (deleteTask i true a) = deleteTask i true a
  ∧ deleteTask i false a = a.
Proof.
  cbn [deleteTask setTasks tasks]. split; [|split; [|split; [|split; [|split; [|done]]]]].
  - apply Forall_forall. by intros t [? _]%list_elem_of_filter.
  - induction (tasks a) as [|t ts IH]; [done|].
    rewrite !filter_cons.
    destruct (decide (id t ≠ i)), (decide (id t = i)); cbn; try done; lia.
  - intros t Ht Hin. by apply list_elem_of_filter.
  - apply sublist_filter.
  - unfold setTasks. cbn. f_equal.
    rewrite list_filter_filter. apply list_filter_iff. intros t. split; [by intros [? ?]|by intros ?].
Qed.

(** ** Stored names *)

Lemma trim_start_suffix (s : jsstring) :
  ∃ p, s = p ++ trim_start s ∧ Forall (λ c, is_js_whitespace c = true) p.
Proof.
  induction s as [|c r (p & Hp & Hws)]; [by exists []|].
  cbn [trim_start]. destruct (is_js_whitespace c) eqn:Hc.
  - exists (c :: p). split; [by rewrite Hp at 1|by constructor].
  - by exists [].
Qed.

Lemma trim_start_fixed (s : jsstring) c r :
  s = c :: r → is_js_whitespace c = false → trim_start s = s.
Proof. intros -> H. cbn. by rewrite H. Qed.

Lemma last_app_nonempty {A} (p v : list A) : v ≠ [] → last (p ++ v) = last v.
Proof.
  intros Hv. destruct v as [|x v _] using rev_ind; [done|].
  by rewrite app_assoc, !last_snoc.
Qed.

Lemma last_rev {A} (l : list A) : last (rev l) = head l.
Proof. destruct l as [|x l]; [done|]. cbn. by rewrite last_snoc. Qed.

Lemma head_rev {A} (l : list A) : head (rev l) = last l.
Proof. by rewrite <- last_rev, rev_involutive. Qed.

Lemma trim_trimmed (s : jsstring) : trim s ≠ [] → trimmed (trim s).
Proof.
  unfold trim, trim_end. set (u := trim_start s). set (v := trim_start (rev u)).
  intros Hne.
  assert (Hv : v ≠ []) by (intros E; apply Hne; by rewrite E).
  destruct v as [|d v'] eqn:Ev; [done|].
  pose proof (trim_start_head (rev u) d v' Ev) as Hd.
  destruct (trim_start_suffix (rev u)) as (p & Hp & _). fold v in Hp. rewrite Ev in Hp.
  assert (Hlast : last (rev u) = last (d :: v')).
  { rewrite Hp at 1. by apply last_app_nonempty. }
  rewrite last_rev in Hlast.
  destruct u as [|c u'] eqn:Eu.
  { destruct p; cbn in Hp; discriminate. }
  pose proof (trim_start_head s c u' Eu) as Hc.
  exists c, d. rewrite head_rev, last_rev. cbn [head] in *. by rewrite <- Hlast.
Qed.

Lemma trimmed_trim (s : jsstring) : trimmed s → trim s = s ∧ s ≠ [].
Proof.
  intros (c & d & Hh & Hl & Hc & Hd).
  destruct s as [|c' r]; [done|]. cbn in Hh. injection Hh as ->.
  split; [|done]. unfold trim, trim_end.
  rewrite (trim_start_fixed (c :: r) c r eq_refl Hc).
  rewrite <- head_rev in Hl.
  destruct (rev (c :: r)) as [|d' r'] eqn:E; [done|]. cbn in Hl. injection Hl as ->.
  rewrite (trim_start_fixed (d :: r') d r' eq_refl Hd), <- E. apply rev_involutive.
Qed.

Lemma well_named_toggle (i : jsstring) (ts : list Task) :
  well_named ts → well_named (map (toggle i) ts).
Proof.
  unfold well_named. induction 1 as [|t ts Ht _ IH]; constructor; [|done].
  unfold toggle. by destruct (str_eqb (id t) i).
Qed.

Lemma run_well_named (es : list Event) (w0 w : World) :
  well_named (store w0) →
  (∀ raw ts, payload w0 = Some raw → decode_payload raw = Some ts → well_named ts) →
  run es w0 = Some w →
  well_named (store w)
  ∧ (∀ raw ts, payload w = Some raw → decode_payload raw = Some ts → well_named ts).
Proof.
  revert w0. induction es as [|e es IH]; intros w0 Hs Hp; cbn [run].
  { by intros [= <-]. }
  destruct (step e w0) as [w1|] eqn:E; [|done].
  destruct (step_store _ _ _ E) as (Hc & Hpay & _).
  apply IH.
  - destruct Hc as [->| n1 n2 -> Hst | i -> | i -> | raw Hraw Hd]; [done|..].
    + pose proof (add_grows_accepted _ _ _ _ _ E Hst) as Hacc%add_accepted_trim.
      rewrite Hst. constructor; [by apply trim_trimmed|done].
    + by apply well_named_toggle.
    + unfold well_named in *. rewrite !Forall_forall in *.
      intros t [_ Ht]%list_elem_of_filter. by apply Hs.
    + by apply (Hp raw).
  - destruct Hpay as [->|[_ ->]]; [done|].
    intros raw ts [= <-] Hd. by rewrite (decode_payload_stringify_inv _ _ Hd).
Qed.

(** X8.  Every name in the store is non-empty and has no white space at
    either end, in every state reached from start-up, provided the tasks
    found in storage at start-up, if any, are named so. *)
Theorem stored_names_trimmed (be : AsyncStorageT) (es : list Event) (w : World) :
  (∀ raw ts, items be !! STORAGE_KEY = Some raw →
             decode_payload raw = Some ts → well_named ts) →
  run es (initial_world be) = Some w →
  ∀ t, t ∈ store w →
    name t ≠ [] ∧ trim (name t) = name t
    ∧ ∃ c d, head (name t) = Some c ∧ last (name t) = Some d
             ∧ is_js_whitespace c = false ∧ is_js_whitespace d = false.
Proof.
  intros H0 Hrun t Ht.
  destruct (run_well_named es (initial_world be) w) as [Hs _]; try done.
  { constructor. }
  unfold well_named in Hs. rewrite Forall_forall in Hs. specialize (Hs t Ht).
  destruct (trimmed_trim _ Hs). done.
Qed.

Lemma stored_names_trimmed_witness :
  let es := [EvChangeText (str "  buy milk "); EvAddTask 7 7; EvSave; EvLoad] in
  ∃ w, run es (initial_world healthy_empty) = Some w
       ∧ ∀ t, t ∈ store w → trim (name t) = name t.
Proof.
  intros es.
  destruct (run es (initial_world healthy_empty)) as [w|] eqn:E;
    [|vm_compute in E; discriminate].
  exists w. split; [done|]. intros t Ht.
  apply (stored_names_trimmed healthy_empty es w); [|exact E|exact Ht].
  intros raw ts Hraw. vm_compute in Hraw. discriminate.
Defined.

Lemma trim_idempotent (s : jsstring) :
  trim (trim s) = trim s
  ∧ (∃ p q, s = p ++ trim s ++ q
            ∧ Forall (λ c, is_js_whitespace c = true) p
            ∧ Forall (λ c, is_js_whitespace c = true) q)
  ∧ (trim s = [] ↔ Forall (λ c, is_js_whitespace c = true) s).
Proof.
  split; [|split].
  - destruct (decide (trim s = [])) as [E|E]; [by rewrite E|].
    by apply trimmed_trim, trim_trimmed.
  - unfold trim, trim_end.
    destruct (trim_start_suffix s) as (p & Hp & Hpw).
    destruct (trim_start_suffix (rev (trim_start s))) as (q & Hq & Hqw).
    exists p, (rev q). split; [|split; [done|by apply Forall_rev]].
    rewrite Hp at 1. f_equal.
    rewrite <- (rev_involutive (trim_start s)) at 1. rewrite Hq at 1.
    by rewrite rev_app_distr.
  - split; [apply trim_nil_blank|apply trim_blank].
Qed.

(** ** The phases of a roll *)

Lemma roll_phase_same (m m' : Machine) :
  same_roll_view (app m) (app m') → timers m' = timers m →
  roll_phase m → roll_phase m'.
Proof.
  intros (Hr & Ht & Hi & Ho & Hs) Htm (Hph & Hsel & Htmp).
  unfold roll_phase, at_rest, in_roll. rewrite Hr, Ht, Hi, Ho, Htm.
  split; [|split; [|done]].
  - destruct Hph as [?|(? & Hnone & ?)]; [by left|right].
    split; [done|]. split; [|done]. destruct Hs as [-> | ->]; done.
  - intros t. destruct Hs as [-> | ->]; [apply Hsel|done].
Qed.

Lemma incomplete_not_done (ts : list Task) :
  Forall (λ t, done t = false) (incomplete ts).
Proof.
  apply Forall_forall. intros t [Hd _]%list_elem_of_filter. by destruct (done t).
Qed.

Lemma pair_cleared (iid tid : nat) (x y : Timer) (ts : Timers) :
  pending ts = <[tid := y]> (<[iid := x]> ∅) →
  pending (clear_ref (Some tid) (clear_ref (Some iid) ts)) = ∅.
Proof.
  intros Hp. apply map_eq. intros i.
  rewrite !lookup_clear_ref, lookup_empty.
  repeat case_decide; try done.
  rewrite Hp, !lookup_insert_ne, lookup_empty by congruence. done.
Qed.

Lemma rest_cleared (r1 r2 : option nat) (ts : Timers) :
  pending ts = ∅ → pending (clear_ref r2 (clear_ref r1 ts)) = ∅.
Proof.
  intros Hp. apply map_eq. intros i.
  rewrite !lookup_clear_ref, lookup_empty.
  repeat case_decide; try done. by rewrite Hp, lookup_empty.
Qed.

Lemma phase_cleared (m : Machine) :
  at_rest m ∨ in_roll m →
  pending (clear_ref (timeoutRef (app m))
             (clear_ref (intervalRef (app m)) (timers m))) = ∅.
Proof.
  intros [(_ & Hp & _)|(_ & _ & iid & tid & av & r & -> & -> & _ & _ & _ & Hp)].
  - by apply rest_cleared.
  - by apply (pair_cleared _ _ _ _ _ Hp).
Qed.

Lemma roll_phase_rollDice (m : Machine) : roll_phase m → roll_phase (rollDice m).
Proof.
  intros Hph.
  destruct (decide (incomplete (tasks (app m)) = [])) as [He|Hne].
  { apply (roll_phase_same m); [|by rewrite (rollDice_empty m He)|done].
    rewrite (rollDice_empty m He). repeat split; auto. }
  destruct Hph as (Hcase & Hsel & Htmp).
  destruct (rollDice_schedules m Hne) as (Ha & Hp & _).
  rewrite (phase_cleared m Hcase), !next_id_clear_ref in Hp.
  rewrite !next_id_clear_ref in Ha.
  unfold roll_phase. rewrite Ha. cbn.
  split; [|split; [done|exact Htmp]].
  right. unfold in_roll. rewrite Ha. cbn. split; [done|]. split; [done|].
  eexists _, _, _, _. split; [done|]. split; [done|].
  split; [lia|]. split; [exact Hne|]. split; [apply incomplete_not_done|exact Hp].
Qed.

Lemma roll_phase_preview_tick (i r : nat) (m : Machine) :
  roll_phase m → roll_phase (preview_tick i r m).
Proof.
  intros (Hcase & Hsel & Htmp). unfold preview_tick.
  destruct (pending (timers m) !! i) as [[[] avail o]|] eqn:E; try done.
  destruct Hcase as [(_ & Hp & _)|Hroll].
  { by rewrite Hp, lookup_empty in E. }
  destruct Hroll as (Hr & Hnone & iid & tid & av & ro & Hi & Ht & Hne & Hav & Hnd & Hp).
  rewrite Hp in E.
  apply lookup_insert_Some in E as [[_ [=]]|[_ E]].
  apply lookup_insert_Some in E as [[<- [= <- <-]]|[_ E]];
    [|by rewrite lookup_empty in E].
  unfold roll_phase, at_rest, in_roll. cbn.
  split; [|split; [done|]].
  - right. split; [done|]. split; [done|]. by eexists iid, tid, av, ro.
  - intros t Hlk. rewrite Forall_forall in Hnd. apply Hnd.
    by apply list_elem_of_lookup_2 in Hlk.
Qed.

Lemma roll_phase_settle (i draw : nat) (m : Machine) :
  roll_phase m → roll_phase (settle i draw m).
Proof.
  intros (Hcase & Hsel & Htmp). unfold settle.
  destruct (pending (timers m) !! i) as [[[] avail o]|] eqn:E; try done.
  destruct Hcase as [(_ & Hp & _)|Hroll].
  { by rewrite Hp, lookup_empty in E. }
  destruct Hroll as (Hr & Hnone & iid & tid & av & ro & Hi & Ht & Hne & Hav & Hnd & Hp).
  rewrite Hp in E.
  apply lookup_insert_Some in E as [[<- [= <- <-]]|[_ E]].
  2:{ apply lookup_insert_Some in E as [[_ [=]]|[_ E]].
      by rewrite lookup_empty in E. }
  unfold roll_phase, at_rest. cbn.
  split; [left|split; [|done]].
  - split; [done|]. split; [|done]. rewrite Hi.
    apply map_eq. intros j. rewrite lookup_clear_ref, lookup_clear, lookup_empty.
    repeat case_decide; try done.
    rewrite Hp, !lookup_insert_ne, lookup_empty by congruence. done.
  - intros t Hpick. apply pick_Some_inv in Hpick as [Hin _].
    rewrite Forall_forall in Hnd. by apply Hnd.
Qed.

Lemma roll_phase_initial : roll_phase initial_machine.
Proof. split; [by left|]. by split. Qed.

Lemma same_roll_view_addTask (n1 n2 : Z) (a : App) :
  same_roll_view a (addTask n1 n2 a).
Proof. unfold addTask. case_match; repeat split; auto. Qed.

Lemma same_roll_view_toggleDone (i : jsstring) (a : App) :
  same_roll_view a (toggleDone i a).
Proof. unfold toggleDone. repeat case_match; repeat split; auto. Qed.

Lemma same_roll_view_deleteTask (i : jsstring) (c : bool) (a : App) :
  same_roll_view a (deleteTask i c a).
Proof. destruct c; repeat split; auto. Qed.

Lemma step_roll_phase (e : Event) (w w' : World) :
  step e w = Some w' → roll_phase (machine w) → roll_phase (machine w').
Proof.
  destruct w as [m be].
  destruct e; cbn [step machine backend]; try (intros [= <-]; cbn [machine]).
  - apply roll_phase_same; [repeat split; auto|done].
  - apply roll_phase_same; [repeat split; auto|done].
  - apply roll_phase_same; [repeat split; auto|done].
  - apply roll_phase_same; [repeat split; auto|done].
  - apply roll_phase_same; [apply same_roll_view_addTask|done].
  - apply roll_phase_same; [apply same_roll_view_toggleDone|done].
  - apply roll_phase_same; [apply same_roll_view_deleteTask|done].
  - apply roll_phase_rollDice.
  - apply roll_phase_preview_tick.
  - apply roll_phase_settle.
  - done.
  - destruct (loadTasks be (app m)) as [a|] eqn:E; [|done].
    intros [= <-]. cbn [machine].
    destruct (loadTasks_cases _ _ _ E) as [->|(raw & ts & _ & _ & ->)];
      (apply roll_phase_same; [repeat split; auto|done]).
  - done.
Qed.

Lemma run_roll_phase (es : list Event) (w0 w : World) :
  roll_phase (machine w0) → run es w0 = Some w → roll_phase (machine w).
Proof.
  revert w0. induction es as [|e es IH]; intros w0 Hinv; cbn [run].
  { by intros [= <-]. }
  destruct (step e w0) as [w1|] eqn:E; [|done].
  apply IH. by apply (step_roll_phase e w0).
Qed.

Lemma reachable_roll_phase (be : AsyncStorageT) (es : list Event) :
  in_model (items be !! STORAGE_KEY) → Forall clock_ok es →
  ∃ w, run es (initial_world be) = Some w ∧ roll_phase (machine w).
Proof.
  intros Hm Hc. destruct (run_defined_initial be es Hm Hc) as [w E].
  exists w. split; [done|].
  by apply (run_roll_phase es (initial_world be) w roll_phase_initial).
Qed.

Lemma no_timer_no_callback (m : Machine) :
  pending (timers m) = ∅ →
  (∀ i r, preview_tick i r m = m) ∧ (∀ i d, settle i d m = m).
Proof.
  intros Hp. split; intros i x.
  - unfold preview_tick. by rewrite Hp, lookup_empty.
  - unfold settle. by rewrite Hp, lookup_empty.
Qed.

(** X10.  The roll button is disabled exactly while a roll is under way,
    in every state reached from start-up: when [rolling] is false no timer
    is pending and no preview is set; when it is true nothing is selected
    and the pending timers are exactly the interval and the timeout held by
    the two refs, both over the same non-empty pool. *)
Theorem roll_button_tracks_timers (be : AsyncStorageT) (es : list Event) :
  in_model (items be !! STORAGE_KEY) → Forall clock_ok es →
  ∃ w, run es (initial_world be) = Some w
    ∧ let m := machine w in
      (roll_button_disabled (app m) = false →
         pending (timers m) = ∅ ∧ tempSelected (app m) = None)
      ∧ (roll_button_disabled (app m) = true →
         selectedTask (app m) = None
         ∧ ∃ iid tid avail r,
             intervalRef (app m) = Some iid ∧ timeoutRef (app m) = Some tid
             ∧ iid ≠ tid ∧ avail ≠ []
             ∧ pending (timers m)
               = <[tid := mkTimer Timeout avail r]>
                   (<[iid := mkTimer Interval avail r]> ∅)).
Proof.
  intros Hm Hc.
  destruct (reachable_roll_phase be es Hm Hc) as (w & E & Hcase & _ & _).
  exists w. split; [done|]. unfold roll_button_disabled. cbn zeta.
  destruct Hcase as [(Hr & Hp & Ht)|(Hr & Hs & iid & tid & av & r & Hroll)];
    rewrite Hr; (split; [|]); try done.
  intros _. split; [done|]. exists iid, tid, av, r.
  by destruct Hroll as (? & ? & ? & ? & _ & ?).
Qed.

Lemma roll_button_tracks_timers_witness :
  ∃ w, run [EvChangeText (str "a"); EvAddTask 10 10; EvRollDice]
           (initial_world healthy_empty) = Some w
       ∧ selectedTask (app (machine w)) = None
       ∧ size (pending (timers (machine w))) = 2.
Proof.
  destruct (roll_button_tracks_timers healthy_empty
              [EvChangeText (str "a"); EvAddTask 10 10; EvRollDice])
    as (w & E & _ & Hon).
  { intros raw vs Hraw. vm_compute in Hraw. discriminate. }
  { repeat constructor. }
  exists w. split; [done|].
  vm_compute in E. injection E as <-.
  destruct (Hon eq_refl) as (Hsel & _). split; [exact Hsel|reflexivity].
Defined.

(** X11.  The task record shown on the card above the list, the selected
    one or else the preview of a running roll, is never marked done.  The
    selected card is shown only when no roll is running and no preview is
    set, the preview card only while a roll is running. *)
Theorem shown_card_never_done (be : AsyncStorageT) (es : list Event) :
  in_model (items be !! STORAGE_KEY) → Forall clock_ok es →
  ∃ w, run es (initial_world be) = Some w
    ∧ let a := app (machine w) in
      match shown_card a with
      | SelectedCard t =>
          done t = false ∧ rolling a = false ∧ tempSelected a = None
      | RollingCard t => done t = false ∧ rolling a = true
      | HintCard => True
      end.
Proof.
  intros Hm Hc.
  destruct (reachable_roll_phase be es Hm Hc) as (w & E & Hcase & Hsel & Htmp).
  exists w. split; [done|]. cbn zeta. unfold shown_card.
  destruct (selectedTask (app (machine w))) as [s|] eqn:Es.
  - split; [by apply Hsel|].
    destruct Hcase as [(Hr & _ & Ht)|(_ & Hnone & _)]; [done|congruence].
  - destruct (tempSelected (app (machine w))) as [t|] eqn:Et; [|done].
    split; [by apply Htmp|].
    destruct Hcase as [(_ & _ & Ht)|(Hr & _)]; [congruence|done].
Qed.

Lemma shown_card_never_done_witness :
  ∃ w t, run [EvChangeText (str "a"); EvAddTask 10 10; EvRollDice;
              EvInterval 1 0]
             (initial_world healthy_empty) = Some w
       ∧ shown_card (app (machine w)) = RollingCard t
       ∧ done t = false.
Proof.
  destruct (shown_card_never_done healthy_empty
              [EvChangeText (str "a"); EvAddTask 10 10; EvRollDice;
               EvInterval 1 0])
    as (w & E & Hcard).
  { intros raw vs Hraw. vm_compute in Hraw. discriminate. }
  { repeat constructor. }
  vm_compute in E. injection E as <-.
  eexists _, _. split; [reflexivity|]. split; [reflexivity|].
  exact (proj1 Hcard).
Defined.

(** X12.  While a roll is running the timeout held by [timeoutRef] is
    pending, and when it fires the roll ends: [rolling] is false, the preview
    is cleared, no timer is left pending, the selection is the weighted pick
    over the pool captured by the roll (a task, for every draw within the
    expanded array), the task list is untouched, and any timer callback
    arriving later does nothing. *)
Theorem settle_ends_roll (be : AsyncStorageT) (es : list Event) :
  in_model (items be !! STORAGE_KEY) → Forall clock_ok es →
  ∃ w, run es (initial_world be) = Some w
    ∧ let m := machine w in
      (rolling (app m) = true →
       ∃ tid avail,
         timeoutRef (app m) = Some tid
         ∧ ∀ draw,
             let m' := settle tid draw m in
             rolling (app m') = false
             ∧ tempSelected (app m') = None
             ∧ pending (timers m') = ∅
             ∧ selectedTask (app m') = pickWeightedTask avail draw
             ∧ (draw < length (expand avail) → is_Some (selectedTask (app m')))
             ∧ tasks (app m') = tasks (app m)
             ∧ (∀ i r, preview_tick i r m' = m')
             ∧ (∀ i d, settle i d m' = m')).
Proof.
  intros Hm Hc.
  destruct (reachable_roll_phase be es Hm Hc) as (w & E & Hcase & _ & _).
  exists w. split; [done|]. cbn zeta. intros Hr.
  destruct Hcase as [(Hr' & _)|(_ & _ & iid & tid & av & r & Hi & Ht & Hne & _ & _ & Hp)];
    [congruence|].
  exists tid, av. split; [done|]. intros draw.
  assert (Hlk : pending (timers (machine w)) !! tid = Some (mkTimer Timeout av r))
    by (by rewrite Hp, lookup_insert_eq).
  assert (Hq : pending (timers (settle tid draw (machine w))) = ∅).
  { unfold settle. rewrite Hlk. cbn. rewrite Hi.
    apply map_eq. intros j. rewrite lookup_clear_ref, lookup_clear, lookup_empty.
    repeat case_decide; try done.
    rewrite Hp, !lookup_insert_ne, lookup_empty by congruence. done. }
  split; [|split; [|split; [exact Hq|split; [|split; [|split]]]]].
  - unfold settle. by rewrite Hlk.
  - unfold settle. by rewrite Hlk.
  - unfold settle. by rewrite Hlk.
  - unfold settle. rewrite Hlk. cbn. apply pick_in_range.
  - unfold settle. by rewrite Hlk.
  - by apply no_timer_no_callback.
Qed.

Lemma settle_ends_roll_witness :
  ∃ w, run [EvChangeText (str "a"); EvAddTask 10 10; EvRollDice]
           (initial_world healthy_empty) = Some w
       ∧ rolling (app (machine w)) = true
       ∧ ∃ tid, timeoutRef (app (machine w)) = Some tid
           ∧ rolling (app (settle tid 1 (machine w))) = false.
Proof.
  destruct (settle_ends_roll healthy_empty
              [EvChangeText (str "a"); EvAddTask 10 10; EvRollDice])
    as (w & E & Hroll).
  { intros raw vs Hraw. vm_compute in Hraw. discriminate. }
  { repeat constructor. }
  exists w. split; [done|].
  vm_compute in E. injection E as <-.
  split; [reflexivity|].
  destruct (Hroll eq_refl) as (tid & av & Ht & Hs).
  exists tid. split; [exact Ht|]. exact (proj1 (Hs 1)).
Defined.

(** X13.  After the cleanup of the mount effect no timer is pending,
    whatever state the component was in, so neither callback of a roll can
    run after the unmount.  The cleanup does not change the component
    state. *)
Theorem unmount_clears_timers (be : AsyncStorageT) (es : list Event) :
  in_model (items be !! STORAGE_KEY) → Forall clock_ok es →
  ∃ w, run es (initial_world be) = Some w
    ∧ let m := unmount (machine w) in
      pending (timers m) = ∅
      ∧ app m = app (machine w)
      ∧ (∀ i r, preview_tick i r m = m)
      ∧ (∀ i d, settle i d m = m).
Proof.
  intros Hm Hc.
  destruct (reachable_roll_phase be es Hm Hc) as (w & E & Hcase & _ & _).
  exists w. split; [done|]. cbn zeta.
  assert (Hq : pending (timers (unmount (machine w))) = ∅)
    by apply (phase_cleared _ Hcase).
  split; [exact Hq|]. split; [done|]. by apply no_timer_no_callback.
Qed.

Lemma unmount_clears_timers_witness :
  ∃ w, run [EvChangeText (str "a"); EvAddTask 10 10; EvRollDice]
           (initial_world healthy_empty) = Some w
       ∧ size (pending (timers (machine w))) = 2
       ∧ pending (timers (unmount (machine w))) = ∅.
Proof.
  destruct (unmount_clears_timers healthy_empty
              [EvChangeText (str "a"); EvAddTask 10 10; EvRollDice])
    as (w & E & Hq & _).
  { intros raw vs Hraw. vm_compute in Hraw. discriminate. }
  { repeat constructor. }
  exists w. split; [done|]. split; [|exact Hq].
  vm_compute in E. injection E as <-. reflexivity.
Defined.

(** ** The storage wrappers *)

(** X14.  Through the two wrappers, what was set under a key is what is
    read back under it when the storage module works; every other key reads
    as before; a missing or failing [setItem] leaves the storage as it was;
    a missing or failing [getItem] reads [null]; of two writes under one key
    the later wins. *)
Theorem safeSetItem_then_safeGetItem (be : AsyncStorageT) (k k' v v' : jsstring) :
  (working be → safeGetItem (safeSetItem be k v) k = Some v)
  ∧ (k' ≠ k → safeGetItem (safeSetItem be k v) k' = safeGetItem be k')
  ∧ (has_setItem be = false ∨ setItem_fails be = true →
     safeSetItem be k v = be)
  ∧ (has_getItem be = false ∨ getItem_fails be = true →
     safeGetItem (safeSetItem be k v) k' = None)
  ∧ safeSetItem (safeSetItem be k v) k v' = safeSetItem be k v'.
Proof.
  destruct be as [g s gf sf it]. unfold working, safeGetItem, safeSetItem. cbn.
  split; [|split; [|split; [|split]]].
  - intros (-> & -> & -> & ->). cbn. apply lookup_insert_eq.
  - intros Hne. destruct s, sf, g, gf; cbn; try done.
    by apply lookup_insert_ne.
  - intros [-> | ->]; [done|]. by destruct s.
  - intros [-> | ->]; destruct s, sf; cbn; try done; by destruct g.
  - destruct s, sf; cbn; try done. by rewrite insert_insert_eq.
Qed.

Lemma safeSetItem_then_safeGetItem_witness :
  safeGetItem (safeSetItem healthy_empty (str "a") (str "1")) (str "a")
  = Some (str "1").
Proof.
  apply (safeSetItem_then_safeGetItem healthy_empty (str "a") (str "b")
           (str "1") (str "2")).
  by repeat split.
Defined.

Lemma saveTasks_frame (a : App) (be : AsyncStorageT) (k : jsstring) :
  k ≠ STORAGE_KEY → items (saveTasks a be) !! k = items be !! k.
Proof.
  intros Hne. unfold saveTasks, safeSetItem.
  destruct (has_setItem be), (setItem_fails be); try done.
  cbn [items]. by apply lookup_insert_ne.
Qed.

Lemma saveTasks_own_key (a : App) (be : AsyncStorageT) :
  items (saveTasks a be) !! STORAGE_KEY = items be !! STORAGE_KEY
  ∨ items (saveTasks a be) !! STORAGE_KEY = Some (JSON_stringify (tasks a)).
Proof.
  unfold saveTasks, safeSetItem.
  destruct (has_setItem be), (setItem_fails be); try (by left).
  right. cbn [items]. apply lookup_insert_eq.
Qed.

Lemma step_items (e : Event) (w w' : World) :
  step e w = Some w' →
  (∀ k, k ≠ STORAGE_KEY → items (backend w') !! k = items (backend w) !! k)
  ∧ (is_Some (items (backend w) !! STORAGE_KEY) →
     is_Some (items (backend w') !! STORAGE_KEY)).
Proof.
  destruct w as [m be].
  destruct e; cbn [step machine backend]; try (by intros [= <-]).
  - intros [= <-]. cbn [backend]. split.
    + intros k Hk. by apply saveTasks_frame.
    + intros Hs. by destruct (saveTasks_own_key (app m) be) as [-> | ->].
  - destruct (loadTasks be (app m)); [|done]. by intros [= <-].
Qed.

(** X15.  The application writes under its own key only: in every run
    every other key of the storage holds what it held at the start, and a
    payload under the application's key, once present, is never removed. *)
Theorem only_own_key_written (es : list Event) (w0 w : World) :
  run es w0 = Some w →
  (∀ k, k ≠ STORAGE_KEY → items (backend w) !! k = items (backend w0) !! k)
  ∧ (is_Some (payload w0) → is_Some (payload w)).
Proof.
  revert w0. induction es as [|e es IH]; intros w0; cbn [run].
  { by intros [= <-]. }
  destruct (step e w0) as [w1|] eqn:E; [|done].
  intros Hrun. destruct (IH w1 Hrun) as [IH1 IH2].
  destruct (step_items e w0 w1 E) as [H1 H2]. split.
  - intros k Hk. by rewrite IH1, H1.
  - intros Hs. by apply IH2, H2.
Qed.

Lemma only_own_key_written_witness :
  let be := mkStorage true true false false {[ str "other" := str "x" ]} in
  ∃ w, run [EvChangeText (str "a"); EvAddTask 10 10; EvSave] (initial_world be)
       = Some w
     ∧ items (backend w) !! str "other" = Some (str "x")
     ∧ is_Some (payload w).
Proof.
  intros be. eexists. split; [reflexivity|]. split.
  - etrans; [|exact (lookup_singleton_eq (M := gmap jsstring) (str "other") (str "x"))].
    eapply (only_own_key_written
              [EvChangeText (str "a"); EvAddTask 10 10; EvSave] (initial_world be));
      [reflexivity|]. by vm_compute.
  - eexists. unfold payload. cbn. apply lookup_insert_eq.
Defined.

(** X16.  Saving twice is saving once, a later save overwrites an earlier
    one, saving changes nothing of the storage module but its items, and
    what is saved depends on the task list only. *)
Theorem saveTasks_last_write_wins (a b : App) (be : AsyncStorageT) :
  saveTasks a (saveTasks a be) = saveTasks a be
  ∧ saveTasks b (saveTasks a be) = saveTasks b be
  ∧ has_getItem (saveTasks a be) = has_getItem be
  ∧ has_setItem (saveTasks a be) = has_setItem be
  ∧ getItem_fails (saveTasks a be) = getItem_fails be
  ∧ setItem_fails (saveTasks a be) = setItem_fails be
  ∧ (tasks a = tasks b → saveTasks a be = saveTasks b be).
Proof.
  unfold saveTasks, safeSetItem. destruct be as [g s gf sf it]. cbn.
  destruct s, sf; cbn; repeat split; try done;
    try (by rewrite insert_insert_eq); by intros ->.
Qed.

(** X17.  A load that returns changes the task list only, and loading
    again gives the same state.  The load replaces the list, it never merges:
    either it leaves every state alone, or it stores one and the same list
    whatever the state it runs in. *)
Theorem loadTasks_replaces (be : AsyncStorageT) (a a' : App) :
  loadTasks be a = Loaded a' →
  a' = setTasks (λ _, tasks a') a
  ∧ loadTasks be a' = Loaded a'
  ∧ ((∀ b, loadTasks be b = Loaded b)
     ∨ (∀ b, loadTasks be b = Loaded (setTasks (λ _, tasks a') b))).
Proof.
  unfold loadTasks.
  destruct (safeGetItem be STORAGE_KEY) as [raw|];
    [|intros [= <-]; split; [by destruct a|split; [done|by left]]].
  destruct (truthy_str raw);
    [|intros [= <-]; split; [by destruct a|split; [done|by left]]].
  destruct (JSON_parse raw) as [[]|];
    try (intros [= <-]; split; [by destruct a|split; [done|by left]]).
  destruct (tasks_of_json _) as [ts|]; [|done].
  intros [= <-]. split; [done|]. split; [done|]. by right.
Qed.

Lemma loadTasks_replaces_witness :
  let be := saveTasks (setTasks (λ _, [mkTask (str "1") (str "a") (str "Low") false 1])
                          initial_app) healthy_empty in
  ∃ a', loadTasks be initial_app = Loaded a' ∧ loadTasks be a' = Loaded a'
        ∧ length (tasks a') = 1.
Proof.
  intros be. eexists. split; [by vm_compute|]. split; [|reflexivity].
  eapply (loadTasks_replaces be initial_app). by vm_compute.
Defined.

(** ** The name stored by an add *)

(** X9.  An accepted add puts one new task at the head of the list.  Its
    name is the typed text without the white space at its two ends; it is
    not empty and trimming it again changes nothing.  Its id is the decimal
    print of the first clock reading, its priority that of the form, its
    creation time the second clock reading, and it is not done. *)
Theorem addTask_stores_trimmed_name (n1 n2 : Z) (a : App) :
  add_accepted a = true →
  ∃ t, tasks (addTask n1 n2 a) = t :: tasks a
     ∧ name t ≠ []
     ∧ trim (name t) = name t
     ∧ (∃ p q, form_name a = p ++ name t ++ q
               ∧ Forall (λ c, is_js_whitespace c = true) p
               ∧ Forall (λ c, is_js_whitespace c = true) q)
     ∧ id t = Number_toString n1 ∧ priority t = form_priority a
     ∧ done t = false ∧ createdAt t = n2.
Proof.
  intros Hacc%add_accepted_trim. eexists. split; [by apply addTask_accepts|].
  cbn. destruct (trim_idempotent (form_name a)) as (Hi & Hpq & _). done.
Qed.

Lemma addTask_stores_trimmed_name_witness :
  ∃ t, tasks (addTask 7 7 (setName (str "  buy milk ") initial_app)) = [t]
       ∧ name t = str "buy milk".
Proof.
  destruct (addTask_stores_trimmed_name 7 7 (setName (str "  buy milk ") initial_app))
    as (t & Ht & _); [reflexivity|].
  exists t. split; [exact Ht|].
  vm_compute in Ht. by injection Ht as <-.
Defined.

(** ** The layout of the expanded array *)

Lemma expand_app (l1 l2 : list Task) : expand (l1 ++ l2) = expand l1 ++ expand l2.
Proof. induction l1 as [|t l1 IH]; cbn; [done|]. by rewrite IH, app_assoc. Qed.

Lemma find_by_id_split (i : jsstring) (pool : list Task) (t : Task) :
  find_by_id i pool = Some t →
  ∃ l1 l2, pool = l1 ++ t :: l2 ∧ Forall (λ u, id u ≠ id t) l1 ∧ id t = i.
Proof.
  unfold find_by_id. induction pool as [|u pool IH]; cbn; [done|].
  destruct (str_eqb (id u) i) eqn:E.
  - intros [= ->]. apply str_eqb_eq in E. by exists [], pool.
  - intros (l1 & l2 & -> & Hl1 & Hid)%IH. apply str_eqb_neq in E.
    exists (u :: l1), l2. split; [done|]. split; [|done].
    constructor; [congruence|done].
Qed.

(** X18.  [pickWeightedTask] returns [null] exactly when the draw falls
    outside the expanded array, which holds between one and three entries
    per task (so an empty pool gives [null]); otherwise it returns the first
    task of the pool that carries the drawn id.  The array lists the ids in
    pool order, each as often as the weight of its task. *)
Theorem pickWeightedTask_first_with_drawn_id (pool : list Task) (draw : nat) :
  (length pool ≤ length (expand pool) ≤ 3 * length pool)
  ∧ (pickWeightedTask pool draw = None ↔ length (expand pool) ≤ draw)
  ∧ (∀ t, pickWeightedTask pool draw = Some t ↔
          ∃ l1 l2, pool = l1 ++ t :: l2 ∧ Forall (λ u, id u ≠ id t) l1
                   ∧ expand pool !! draw = Some (id t))
  ∧ (∀ l1 t l2 j, pool = l1 ++ t :: l2 → j < weight t →
       expand pool !! (total_weight l1 + j) = Some (id t)).
Proof.
  split; [|split; [|split]].
  - rewrite length_expand. unfold total_weight.
    induction pool as [|t pool IH]; cbn; [lia|].
    pose proof (weight_pos t).
    assert (weight t ≤ 3) by (unfold weight; repeat case_match; lia). lia.
  - split.
    + intros Hn. destruct (decide (draw < length (expand pool))) as [Hlt|]; [|lia].
      destruct (pick_in_range pool draw Hlt) as [? ?]. congruence.
    + intros Hle. rewrite pick_cases.
      by rewrite (lookup_ge_None_2 _ _ Hle).
  - intros t. rewrite pick_cases. split.
    + destruct (expand pool !! draw) as [i|]; [|done].
      intros (l1 & l2 & -> & Hl1 & <-)%find_by_id_split. by exists l1, l2.
    + intros (l1 & l2 & -> & Hl1 & ->). by apply find_by_id_first.
  - intros l1 t l2 j -> Hj. rewrite expand_app. cbn [expand].
    rewrite <- length_expand, lookup_app_r by lia.
    replace (length (expand l1) + j - length (expand l1)) with j by lia.
    rewrite lookup_app_l by (rewrite length_replicate; lia).
    by apply lookup_replicate_2.
Qed.

(** ** The chip and the weights *)

(** X19.  The chip colours follow the weights: two tasks get the same chip
    colour exactly when they have the same weight; the first colour goes
    with weight 3, the second with weight 2, the third with weight 1, which
    is every priority other than High and Medium.  The chip text is the
    priority itself. *)
Theorem chip_colour_matches_weight (t u : Task) :
  (fst (renderPriorityChip (priority t)) = fst (renderPriorityChip (priority u))
   ↔ weight t = weight u)
  ∧ (fst (renderPriorityChip (priority t)) = str "#ff6b6b" ↔ weight t = 3)
  ∧ (fst (renderPriorityChip (priority t)) = str "#ffb86b" ↔ weight t = 2)
  ∧ (fst (renderPriorityChip (priority t)) = str "#6bff95" ↔ weight t = 1)
  ∧ snd (renderPriorityChip (priority t)) = priority t.
Proof.
  unfold renderPriorityChip, weight. cbn [fst snd].
  destruct (str_eqb (priority t) (str "High")),
           (str_eqb (priority t) (str "Medium")),
           (str_eqb (priority u) (str "High")),
           (str_eqb (priority u) (str "Medium"));
    repeat split; intros; try done; try lia;
    match goal with H : _ = _ |- _ => by vm_compute in H end.
Qed.

(** ** The priority buttons *)

Lemma run_form_priority (es : list Event) (w0 w : World) :
  is_enumerated (form_priority_of w0) → run es w0 = Some w →
  is_enumerated (form_priority_of w).
Proof.
  revert w0. induction es as [|e es IH]; intros w0 H0; cbn [run].
  { by intros [= <-]. }
  destruct (step e w0) as [w1|] eqn:E; [|done].
  apply IH. destruct (step_store _ _ _ E) as (_ & _ & [-> | H]); done.
Qed.

(** X20.  In every state reached from start-up exactly one of the three
    priority buttons is drawn active, the one of the form priority, and a
    task added in that state gets that priority. *)
Theorem one_priority_button_active (be : AsyncStorageT) (es : list Event) (w : World) :
  run es (initial_world be) = Some w →
  ∃ p, filter (λ b, snd b = true) (priority_buttons (app (machine w))) = [(p, true)]
       ∧ form_priority (app (machine w)) = p
       ∧ ∀ n1 n2 t, tasks (addTask n1 n2 (app (machine w)))
                    = t :: tasks (app (machine w)) →
                    priority t = p.
Proof.
  intros Hrun.
  assert (Hen : is_enumerated (form_priority (app (machine w)))).
  { apply (run_form_priority es (initial_world be) w); [|done]. by right; left. }
  exists (form_priority (app (machine w))).
  split; [|split; [done|]].
  - unfold priority_buttons. by destruct Hen as [-> | [-> | ->]].
  - intros n1 n2 t Ht.
    destruct (decide (trim (form_name (app (machine w))) = [])) as [E|E].
    + rewrite (addTask_rejects _ _ _ E) in Ht. cbn in Ht.
      exfalso. apply (f_equal length) in Ht. cbn in Ht. lia.
    + rewrite (addTask_accepts _ _ _ E) in Ht. by injection Ht as <-.
Qed.

Lemma one_priority_button_active_witness :
  ∃ w, run [EvPressPriority High; EvShowModal] (initial_world healthy_empty) = Some w
     ∧ filter (λ b, snd b = true) (priority_buttons (app (machine w)))
       = [(str "High", true)].
Proof.
  eexists. split; [reflexivity|].
  destruct (one_priority_button_active healthy_empty
              [EvPressPriority High; EvShowModal] _ eq_refl) as (p & Hf & Hp & _).
  rewrite Hf. by rewrite <- Hp.
Defined.

(** ** The error cell *)

Lemma error_addTask (n1 n2 : Z) (a : App) :
  error (addTask n1 n2 a)
  = if add_accepted a then [] else str "Please enter a task name".
Proof.
  destruct (add_accepted a) eqn:E.
  - apply add_accepted_trim in E. by rewrite (addTask_accepted_state _ _ _ E).
  - rewrite addTask_rejects; [done|].
    destruct (decide (trim (form_name a) = [])) as [|Hne]; [done|].
    apply add_accepted_trim in Hne. congruence.
Qed.

Lemma error_rollDice (m : Machine) :
  error (app (rollDice m))
  = match incomplete (tasks (app m)) with
    | [] => str "No incomplete tasks to pick from. Add some!"
    | _ :: _ => []
    end.
Proof.
  destruct (incomplete (tasks (app m))) as [|x l] eqn:E.
  - by rewrite (rollDice_empty m E).
  - assert (Hne : incomplete (tasks (app m)) ≠ []) by (by rewrite E).
    destruct (rollDice_schedules m Hne) as (-> & _). done.
Qed.

Lemma step_known_error (e : Event) (w w' : World) :
  step e w = Some w' → known_error (error (app (machine w))) →
  known_error (error (app (machine w'))).
Proof.
  destruct w as [m be].
  destruct e; cbn [step machine backend]; try (by intros [= <-]).
  - intros [= <-] _. by left.
  - intros [= <-] _. cbn [machine on_app app]. rewrite error_addTask.
    destruct (add_accepted (app m)); [by left|by right; left].
  - intros [= <-]. cbn [machine on_app app]. unfold toggleDone.
    by repeat case_match.
  - intros [= <-]. by destruct confirmed.
  - intros [= <-] _. cbn [machine]. rewrite error_rollDice.
    destruct (incomplete _); [by right; right|by left].
  - intros [= <-]. cbn [machine]. unfold preview_tick.
    by destruct (pending (timers m) !! i) as [[[] ? ?]|].
  - intros [= <-]. cbn [machine]. unfold settle.
    by destruct (pending (timers m) !! i) as [[[] ? ?]|].
  - destruct (loadTasks be (app m)) as [a|] eqn:E; [|done].
    intros [= <-]. cbn [machine on_app app].
    by destruct (loadTasks_cases _ _ _ E) as [->|(raw & ts & _ & _ & ->)].
Qed.

(** X21.  The error cell only ever holds the empty string or one of the
    two messages of the code.  In every state reached from start-up an add
    clears it exactly when the name is accepted, a roll clears it exactly
    when there is an incomplete task, and Cancel always clears it. *)
Theorem error_cell_messages (be : AsyncStorageT) (es : list Event) (w : World) :
  run es (initial_world be) = Some w →
  let m := machine w in
  known_error (error (app m))
  ∧ (∀ n1 n2, error (app (on_app (addTask n1 n2) m)) = []
              ↔ trim (form_name (app m)) ≠ [])
  ∧ (error (app (rollDice m)) = [] ↔ incomplete (tasks (app m)) ≠ [])
  ∧ error (cancel_modal (app m)) = [].
Proof.
  intros Hrun m. split; [|split; [|split; [|done]]].
  - subst m. revert Hrun.
    assert (H0 : known_error (error (app (machine (initial_world be))))) by (by left).
    revert H0. generalize (initial_world be).
    induction es as [|e es IH]; intros w0 H0; cbn [run].
    { by intros [= <-]. }
    destruct (step e w0) as [w1|] eqn:E; [|done].
    apply IH. by apply (step_known_error e w0).
  - intros n1 n2. cbn [on_app app]. rewrite error_addTask, <- add_accepted_trim.
    by destruct (add_accepted (app m)).
  - rewrite error_rollDice. by destruct (incomplete _).
Qed.

Lemma error_cell_messages_witness :
  ∃ w, run [EvRollDice; EvShowModal; EvAddTask 3 3] (initial_world healthy_empty)
       = Some w
     ∧ known_error (error (app (machine w)))
     ∧ error (app (machine w)) = str "Please enter a task name".
Proof.
  eexists. split; [reflexivity|]. split; [|reflexivity].
  apply (error_cell_messages healthy_empty [EvRollDice; EvShowModal; EvAddTask 3 3] _
           eq_refl).
Defined.
